(** * aixiv: rate-limited article mapping and arXiv search

    A shallow embedding of [aixiv/search.py] and [aixiv/article.py].

    Python [str] values are sequences of Unicode code points; times are
    counted in milliseconds.  Calls into third-party packages ([arxiv],
    [dateparser], [pylatexenc], [limits]) and into [asyncio] are either
    section variables or small explicit models, each marked as such. *)

From Stdlib Require Import NArith ZArith Lia String Ascii.
From stdpp Require Import base option list.

Set Warnings "-register-all".
Local Open Scope N_scope.

(** ** Python values shared by both modules *)

(** A code point. *)
Definition char := N.

(** A Python [str]. *)
Definition str := list char.

(** A literal, written as a Rocq string. *)
Definition text (s : string) : str :=
  List.map N_of_ascii (list_ascii_of_string s).

(** Exceptions below [Exception] that the two modules see. *)
Inductive exn :=
| TimeoutError
| ValueError (msg : str)
| Error (name : str).

(** Records sent to [LOGGER] at warning level (debug records are not
    modelled). *)
Inductive record :=
| WARNING (msg : str).

(** Computations that log and may raise. *)
Definition M (A : Type) : Type := list record * (exn + A).

Definition ret {A} (a : A) : M A := ([], inr a).
Definition raise {A} (e : exn) : M A := ([], inl e).
Definition warning (msg : str) : M unit := ([WARNING msg], inr tt).

Definition bind {A B} (m : M A) (k : A -> M B) : M B :=
  match m with
  | (l, inl e) => (l, inl e)
  | (l, inr a) => let '(l', r) := k a in (l ++ l', r)
  end.

(** [try: m  except Exception: h] *)
Definition try_except {A} (m : M A) (h : exn -> M A) : M A :=
  match m with
  | (l, inl e) => let '(l', r) := h e in (l ++ l', r)
  | (l, inr a) => (l, inr a)
  end.

Notation "x <- m ;; k" := (bind m (fun x => k))
  (at level 100, m at level 99, right associativity).
Notation "m ;;; k" := (bind m (fun _ => k))
  (at level 100, right associativity).

Fixpoint mapM {A B} (f : A -> M B) (l : list A) : M (list B) :=
  match l with
  | [] => ret []
  | a :: l' => b <- f a ;; bs <- mapM f l' ;; ret (b :: bs)
  end.

(** * [aixiv/search.py] *)
Module search.

(** ** Regular expressions of the shape used by [SEP_PATTERN]

    A pattern is an ordered alternation of sequences of character classes,
    each class under a greedy quantifier ([+] or [*]).  Matching follows
    the backtracking semantics of Python's [re]: alternatives are tried
    left to right, a quantifier first takes as many characters as it can
    and gives them back one at a time. *)

Record item := Rep { accepts : char -> bool; least : nat }.

Definition plus (p : char -> bool) : item := Rep p 1.
Definition star (p : char -> bool) : item := Rep p 0.

(** Length of the longest prefix of [s] inside the class [p]. *)
Fixpoint span (p : char -> bool) (s : str) : nat :=
  match s with
  | c :: s' => if p c then S (span p s') else O
  | [] => O
  end.

(** Try the continuation with [k] repetitions, then [k-1], ... down to
    [least]. *)
Fixpoint backtrack (least k : nat) (cont : nat -> option nat) : option nat :=
  match cont k with
  | Some n => Some n
  | None =>
      match k with
      | S k' => if (least <=? k')%nat then backtrack least k' cont else None
      | O => None
      end
  end.

(** Match a sequence at the start of [s]; [acc] characters are already
    consumed.  With [must_advance] an empty match is refused.  The result
    is the length of the match. *)
Fixpoint match_seq (must_advance : bool) (acc : nat) (b : list item) (s : str)
  : option nat :=
  match b with
  | [] => if must_advance && (acc =? 0)%nat then None else Some acc
  | it :: b' =>
      let n := span (accepts it) s in
      if (n <? least it)%nat then None
      else backtrack (least it) n
             (fun k => match_seq must_advance (acc + k)%nat b' (drop k s))
  end.

Fixpoint match_at (must_advance : bool) (r : list (list item)) (s : str)
  : option nat :=
  match r with
  | [] => None
  | b :: r' =>
      match match_seq must_advance 0 b s with
      | Some n => Some n
      | None => match_at must_advance r' s
      end
  end.

(** [Pattern.sub(repl, s)]: leftmost non-overlapping matches are replaced.
    [skip] counts the characters of the current match still to be dropped.
    After an empty match the scanner looks for a non-empty match at the
    same place, and otherwise copies one character. *)
Fixpoint sub_from (r : list (list item)) (repl : str) (s : str) (skip : nat)
  : str :=
  match s with
  | [] =>
      match skip with
      | O => match match_at false r [] with Some _ => repl | None => [] end
      | S _ => []
      end
  | c :: s' =>
      match skip with
      | S k => sub_from r repl s' k
      | O =>
          match match_at false r s with
          | Some (S k) => repl ++ sub_from r repl s' k
          | Some O =>
              repl ++
              match match_at true r s with
              | Some (S k) => repl ++ sub_from r repl s' k
              | _ => c :: sub_from r repl s' 0
              end
          | None => c :: sub_from r repl s' 0
          end
      end
  end.

Definition sub (r : list (list item)) (repl : str) (s : str) : str :=
  sub_from r repl s 0.

(** ** Constants *)

(** [\n] *)
Definition newline (c : char) : bool := c =? 10.

(** [\s] of a [str] pattern: the Unicode white space characters. *)
Definition isspace (c : char) : bool :=
  ((9 <=? c) && (c <=? 13)) || ((28 <=? c) && (c <=? 32))
  || (c =? 133) || (c =? 160) || (c =? 5760)
  || ((8192 <=? c) && (c <=? 8202))
  || (c =? 8232) || (c =? 8233) || (c =? 8239) || (c =? 8287) || (c =? 12288).

(** [SEP_PATTERN = compile(r"\n+\s*|\n*\s+")] *)
Definition SEP_PATTERN : list (list item) :=
  [ [plus newline; star isspace]; [star newline; plus isspace] ].

(** [SEP_REPL = " "] *)
Definition SEP_REPL : str := [32].

(** ** The [Article] dataclass *)

Inductive Article := mkArticle {
  title : str;
  authors : list str;
  summary : str;
  url : str;
  origin : option Article
}.

(** Convert all separators to a single whitespace. *)
Definition __post_init__ (self : Article) : Article :=
  mkArticle (sub SEP_PATTERN SEP_REPL (title self)) (authors self)
            (sub SEP_PATTERN SEP_REPL (summary self)) (url self) (origin self).

(** The [__init__] that [@dataclass] generates: store the fields, then run
    [__post_init__]. *)
Definition __init__ (title : str) (authors : list str) (summary url : str)
  (origin : option Article) : Article :=
  __post_init__ (mkArticle title authors summary url origin).

(** An [arxiv.Result], as far as [from_arxiv] reads it. *)
Record Author := { name : str }.
Record Result := {
  result_title : str;
  result_authors : list Author;
  result_summary : str;
  entry_id : str
}.

Definition from_arxiv (result : Result) : Article :=
  __init__ (result_title result) (List.map name (result_authors result))
      (result_summary result) (entry_id result) None.

(** What the spec says of a normalised field: every maximal run of white
    space is replaced by a single space.  [in_run] tells that the previous
    character was white space. *)
Fixpoint squeeze (in_run : bool) (s : str) : str :=
  match s with
  | [] => []
  | c :: s' =>
      if isspace c
      then if in_run then squeeze true s' else 32 :: squeeze true s'
      else c :: squeeze false s'
  end.

(** A field that normalisation leaves alone: its only white space is the
    space character, never two in a row ([in_run]: nor right at the
    start). *)
Fixpoint tidy (in_run : bool) (s : str) : bool :=
  match s with
  | [] => true
  | c :: s' =>
      if isspace c then negb in_run && (c =? 32) && tidy true s'
      else tidy false s'
  end.

Section Collaborators.

(** [dateparser.parse] followed by [strftime(ARXIV_DATE_FORMAT)]. *)
Variable datetime : Type.
Variable dateparser_parse : str -> option datetime.
Variable strftime : datetime -> str -> str.
(** [DETEXER.latex_to_text]: a string, or an exception. *)
Variable latex_to_text : str -> exn + str.
(** [textwrap.shorten] and [repr] on strings. *)
Variable shorten : str -> N -> str.
Variable repr : str -> str.
(** [Client().results(Search(query, max_results=maximum))], as a list. *)
Variable client_results : str -> N -> list Result.

Definition ARXIV_DATE_FORMAT : str := text "%Y%m%d%H%M%S".

Definition format_date (date_like : str) : M str :=
  match dateparser_parse date_like with
  | Some dt => ret (strftime dt ARXIV_DATE_FORMAT)
  | None =>
      raise (ValueError (text "Could not parse " ++ repr date_like ++ text "."))
  end.

Definition format_text (text_like : str) : M str :=
  try_except
    (([], latex_to_text text_like) : M str)
    (fun _ =>
       warning (text "Failed to format " ++ repr (shorten text_like 100)
                ++ text ". The original string was returned instead.") ;;;
       ret text_like).

(** The text that [format_text] returns. *)
Definition detexed (text_like : str) : str :=
  match latex_to_text text_like with
  | inr t => t
  | inl _ => text_like
  end.

(** A record after the [detex] step of [search]. *)
Definition finished (detex : bool) (a : Article) : Article :=
  if detex
  then mkArticle (detexed (title a)) (authors a) (detexed (summary a)) (url a)
         (origin a)
  else a.

(** [sep.join(parts)] *)
Fixpoint join (sep : str) (parts : list str) : str :=
  match parts with
  | [] => []
  | [p] => p
  | p :: ps => p ++ sep ++ join sep ps
  end.

Definition is_empty {A} (l : list A) : bool :=
  match l with [] => true | _ => false end.

(** Lines 117-125 of [search]: the query sent to arXiv for two formatted
    dates. *)
Definition query_for (categories keywords : list str) (start_date end_date : str)
  : str :=
  let query :=
    text "submittedDate:[" ++ start_date ++ text " TO " ++ end_date ++ text "]" in
  let query :=
    if is_empty categories then query
    else query ++ text " AND ("
         ++ join (text " OR ") (List.map (fun cat => text "cat:" ++ cat) categories)
         ++ text ")" in
  if is_empty keywords then query
  else query ++ text " AND ("
       ++ join (text " OR ")
            (List.map (fun kwd => text "abs:" ++ [34] ++ kwd ++ [34]) keywords)
       ++ text ")".

Definition detex_article (article : Article) : M Article :=
  t <- format_text (title article) ;;
  s <- format_text (summary article) ;;
  ret (mkArticle t (authors article) s (url article) (origin article)).

Definition search (categories keywords : list str) (start_date end_date : str)
  (detex : bool) (maximum : N) : M (list Article) :=
  start_date <- format_date start_date ;;
  end_date <- format_date end_date ;;
  let query :=
    text "submittedDate:[" ++ start_date ++ text " TO " ++ end_date ++ text "]" in
  let query :=
    if is_empty categories then query
    else query ++ text " AND ("
         ++ join (text " OR ") (List.map (fun cat => text "cat:" ++ cat) categories)
         ++ text ")" in
  let query :=
    if is_empty keywords then query
    else query ++ text " AND ("
         ++ join (text " OR ")
              (List.map (fun kwd => text "abs:" ++ [34] ++ kwd ++ [34]) keywords)
         ++ text ")" in
  let articles := List.map from_arxiv (client_results query maximum) in
  if detex then mapM detex_article articles else ret articles.

End Collaborators.

(** ** Sample data *)

(** A date parser that understands any text but the empty one, a client
    with two records of which it hands out at most [maximum]. *)
Definition toy_dateparser (s : str) : option str :=
  match s with [] => None | _ :: _ => Some s end.

Definition toy_strftime (dt : str) (format : str) : str := dt.

Definition toy_results : list Result :=
  [ {| result_title := text "Dust in" ++ [10] ++ text "galaxies";
       result_authors := [ {| name := text "A. Author" |} ];
       result_summary := [92];
       entry_id := text "http://arxiv.org/abs/2101.00188v2" |};
    {| result_title := text "Stars";
       result_authors := [ {| name := text "B. Author" |};
                           {| name := text "C. Author" |} ];
       result_summary := text "We  count stars.";
       entry_id := text "http://arxiv.org/abs/2101.00158v1" |} ].

Definition toy_client (query : str) (maximum : N) : list Result :=
  take (N.to_nat maximum) toy_results.

(** A converter that fails on a lone backslash. *)
Definition toy_latex_to_text (s : str) : exn + str :=
  match s with
  | [92] => inl (Error (text "LatexWalkerParseError"))
  | _ => inr s
  end.

End search.

(** * [aixiv/article.py] *)
Module article.

(** Milliseconds. *)
Definition time := N.

(** [INTERVAL = 0.1] seconds. *)
Definition INTERVAL : time := 100.

(** ** The frozen [Article] dataclass *)

Inductive Article := mkArticle {
  title : str;
  authors : list str;
  summary : str;
  url : str;
  origin : option Article
}.

Definition from_arxiv (result : search.Result) : Article :=
  mkArticle (search.result_title result)
            (List.map search.name (search.result_authors result))
            (search.result_summary result) (search.entry_id result) None.

(** [dataclasses.replace(result, origin=article)] *)
Definition replace (result : Article) (origin : Article) : Article :=
  mkArticle (title result) (authors result) (summary result) (url result)
            (Some origin).

(** ** [Article.__format__] *)

(** [reprlib.Repr.repr_instance], which [Repr.repr] runs on an object of a
    class it has no method for: the [repr] of the object, its middle
    replaced by the fill value when it is longer than [maxother]. *)
Definition repr_instance (maxother : Z) (s : str) : str :=
  if (maxother <? Z.of_nat (length s))%Z then
    let i := Z.max 0 ((maxother - 3) / 2) in
    let j := Z.max 0 (maxother - 3 - i) in
    take (Z.to_nat i) s ++ text "..." ++ drop (length s - Z.to_nat j) s
  else s.

Section Format.

(** [repr(self)], as [@dataclass] generates it, and [int] on a string. *)
Variable builtins_repr : Article -> str.
Variable int : str -> exn + Z.

(** Support shortened representation of the article. *)
Definition __format__ (self : Article) (format_spec : str) : exn + str :=
  match format_spec with
  | [] => inr (builtins_repr self)
  | _ :: _ =>
      match int format_spec with
      | inl e => inl e
      | inr maxother => inr (repr_instance maxother (builtins_repr self))
      end
  end.

End Format.

(** ** Rate limits of the [limits] package *)

(** A [RateLimitItem]: [amount] operations per [multiples] units of
    [granularity] seconds. *)
Record RateLimitItem := {
  amount : N;
  multiples : N;
  granularity : N
}.

(** [RateLimitItem.get_expiry], in milliseconds. *)
Definition get_expiry (item : RateLimitItem) : time :=
  1000 * (granularity item * multiples item).

(** Modelled from the spec: the eviction step of the RateLimiter of
    section 4.1 (in the code, part of [MovingWindowRateLimiter.hit] over a
    [MemoryStorage], which belongs to the [limits] package): drop all
    recorded timestamps older than [now - period]. *)
Definition evict (now period : time) (window : list time) : list time :=
  List.filter (fun t => now <=? t + period) window.

(** Modelled from the spec: [admit] of the RateLimiter of section 4.1 (in
    the code, [MovingWindowRateLimiter.hit] over a [MemoryStorage], which
    belongs to the [limits] package).  The state is the sequence of
    admission timestamps, newest first.  The call is admitted, and [now]
    recorded, iff fewer than [amount] timestamps fall inside the trailing
    window; otherwise nothing is recorded. *)
Definition hit (item : RateLimitItem) (now : time) (window : list time)
  : bool * list time :=
  let window := evict now (get_expiry item) window in
  if N.of_nat (length window) <? amount item
  then (true, now :: window)
  else (false, window).

(** The admissions among [hits] that fall in the sliding window of length
    [period] that opens at [x]. *)
Definition in_window (x period t : time) : bool :=
  (x <=? t) && (t <=? x + period).

Definition admitted_in (x period : time) (hits : list time) : nat :=
  length (List.filter (in_window x period) hits).

(** ** Transformations *)

Inductive outcome :=
| Return (result : Article)
| Raise (e : exn).

(** What a call [func(article)] does, as the event loop sees it: [Now d o]
    runs for [d] ms without suspending and then returns an article or
    raises; [Later d o] returns an awaitable at once, which, awaited, is
    seen by the loop to return or raise after [d] ms. *)
Inductive Finally :=
| Now (d : time) (o : outcome)
| Later (d : time) (o : outcome).

(** A coroutine, by what awaiting it does: whether its body gets to run,
    how long it holds the loop, how long it is suspended, and how it
    ends. *)
Record coroutine := {
  started : bool;
  blocking : time;
  suspended : time;
  value : exn + Article
}.

(** [asyncio.wait_for(aw, timeout)].  A timeout that is not positive
    cancels the coroutine before it starts; otherwise the coroutine is
    cancelled once it has been suspended for [timeout]. *)
Definition wait_for (aw : coroutine) (timeout : time) : coroutine :=
  if timeout =? 0 then
    {| started := false; blocking := 0; suspended := 0;
       value := inl TimeoutError |}
  else if suspended aw <? timeout then aw
  else
    {| started := true; blocking := blocking aw; suspended := timeout;
       value := inl TimeoutError |}.

(** ** The event loop *)

(** Where a [runner] task stands.  [Polling w]: in the admission loop
    (lines 123-124), next runnable at [w].  [Awaiting w r]: inside
    [wait_for] (line 128), resumed at [w] with [r].  [Finished a]: returned
    [a]. *)
Inductive phase :=
| Polling (wake : time)
| Awaiting (wake : time) (r : exn + Article)
| Finished (a : Article).

(** The running loop: its time, the limiter's storage, and the [runner]
    tasks that [gather] waits for, in the order of the articles.  [hits]
    and [calls] are a record of the run: the timestamp of every admission
    and the argument of every call of [func], newest first. *)
Record loop := {
  clock : time;
  storage : list time;
  hits : list time;
  calls : list Article;
  tasks : list (Article * phase)
}.

Definition due (p : phase) : option time :=
  match p with
  | Polling w => Some w
  | Awaiting w _ => Some w
  | Finished _ => None
  end.

(** The task that runs next: the one due first, the lowest index among
    equals. *)
Fixpoint earliest (ts : list (Article * phase)) : option (nat * time) :=
  match ts with
  | [] => None
  | (_, p) :: ts' =>
      match due p, earliest ts' with
      | None, r => (fun '(i, w) => (S i, w)) <$> r
      | Some w, None => Some (O, w)
      | Some w, Some (i, w') => if w <=? w' then Some (O, w) else Some (S i, w')
      end
  end.

(** What [gather] hands back once every task has returned. *)
Definition results (ts : list (Article * phase)) : list Article :=
  List.map (fun '(a, p) => match p with Finished r => r | _ => a end) ts.

Inductive result :=
| Returned (l : list Article)
| Raised (e : exn).

Section Main.

Variable func : Article -> Finally.
Variable rate_limit : RateLimitItem.
Variable timeout : time.

(** [afunc]: call [func], await what it returns if that is awaitable, and
    set [origin]. *)
Definition afunc (article : Article) : coroutine :=
  let replaced o :=
    match o with
    | Return result => inr (replace result article)
    | Raise e => inl e
    end in
  match func article with
  | Now d o =>
      {| started := true; blocking := d; suspended := 0; value := replaced o |}
  | Later d o =>
      {| started := true; blocking := 0; suspended := d; value := replaced o |}
  end.

(** The [try] statement of [runner] (lines 126-136): the article mapped by
    [afunc] under [wait_for]; on [TimeoutError] the article itself; any
    other exception is not handled. *)
Definition attempt (article : Article) : exn + Article :=
  match value (wait_for (afunc article) timeout) with
  | inl TimeoutError => inr article
  | r => r
  end.

(** One turn of the loop: the task due first runs until it suspends,
    returns or raises.  A polling task calls [hit]: denied, it sleeps for
    [INTERVAL]; admitted, it enters [wait_for], which holds the loop while
    [func] runs and then suspends the task until the awaitable or the
    timeout is due.  A task resumed from [wait_for] returns, or raises, and
    then [gather] re-raises.  The result is [Some r] once [gather] is done.
    [clock] is the loop's time; [hits] and [calls] only record the admitted
    timestamps and the invocations of [func].  The [LOGGER] calls of
    [runner] are left out. *)
Definition step (s : loop) : option result * loop :=
  match earliest (tasks s) with
  | None => (Some (Returned (results (tasks s))), s)
  | Some (i, w) =>
      let now := N.max (clock s) w in
      match tasks s !! i with
      | Some (article, Polling _) =>
          let '(ok, window) := hit rate_limit now (storage s) in
          if ok then
            let c := wait_for (afunc article) timeout in
            (None,
             {| clock := now + blocking c;
                storage := window;
                hits := now :: hits s;
                calls := if started c then article :: calls s else calls s;
                tasks :=
                  <[i := (article,
                          Awaiting (now + blocking c + suspended c)
                                   (attempt article))]>
                    (tasks s) |})
          else
            (None,
             {| clock := now; storage := window; hits := hits s;
                calls := calls s;
                tasks := <[i := (article, Polling (now + INTERVAL))]> (tasks s) |})
      | Some (article, Awaiting _ (inr a)) =>
          (None,
           {| clock := now; storage := storage s; hits := hits s;
              calls := calls s;
              tasks := <[i := (article, Finished a)]> (tasks s) |})
      | Some (article, Awaiting _ (inl e)) =>
          (Some (Raised e),
           {| clock := now; storage := storage s; hits := hits s;
              calls := calls s; tasks := tasks s |})
      | _ => (None, s)
      end
  end.

(** [run(main())], for at most [fuel] turns; [None] while still running. *)
Fixpoint run (fuel : nat) (s : loop) : option result * loop :=
  match fuel with
  | O => (None, s)
  | S fuel' =>
      match step s with
      | (Some r, s') => (Some r, s')
      | (None, s') => run fuel' s'
      end
  end.

End Main.

(** The loop as [main] finds it: a task per article, all runnable. *)
Definition start (articles : list Article) : loop :=
  {| clock := 0; storage := []; hits := []; calls := [];
     tasks := List.map (fun a => (a, Polling 0)) articles |}.

Section Amap.

(** [limits.parse]. *)
Variable parse : str -> exn + RateLimitItem.

(** [UNLIMITED = parse("1000/second")] *)
Definition UNLIMITED : exn + RateLimitItem := parse (text "1000/second").

(** Lines 117-120: the quota that [main] works with. *)
Definition rate_limit_for (limit : option str) : exn + RateLimitItem :=
  match limit with
  | None => UNLIMITED
  | Some limit => parse limit
  end.

(** [amap(func, articles, limit=limit, timeout=timeout)], run for at most
    [fuel] turns of the loop.  The first component is [None] while the
    call has not come back; the second is the loop as it was left. *)
Definition amap (fuel : nat) (func : Article -> Finally)
  (articles : list Article) (limit : option str) (timeout : time)
  : option result * loop :=
  match rate_limit_for limit with
  | inl e => (Some (Raised e), start [])
  | inr rate_limit => run func rate_limit timeout fuel (start articles)
  end.

End Amap.

(** ** The notation of [limits.parse]

    A model of [limits.parse] on a single limit, used to run [amap] on
    concrete limit strings: [<count> (/ | per) [<multiples>] <unit>[s]],
    with optional white space between the parts and ASCII letters in either
    case.  A multiple of zero counts as one; the count is taken as
    written. *)

Definition digit (c : char) : bool := (48 <=? c) && (c <=? 57).

Definition lower (c : char) : char :=
  if (65 <=? c) && (c <=? 90) then c + 32 else c.

Definition skip (p : char -> bool) (s : str) : str :=
  drop (search.span p s) s.

(** The decimal number at the start of [s], after the digits [acc]. *)
Fixpoint number (acc : N) (s : str) : N * str :=
  match s with
  | c :: s' => if digit c then number (10 * acc + (c - 48)) s' else (acc, s)
  | [] => (acc, [])
  end.

(** [s] without the prefix [p], compared without case. *)
Fixpoint after (p : str) (s : str) : option str :=
  match p, s with
  | [], _ => Some s
  | a :: p', c :: s' => if lower c =? a then after p' s' else None
  | _ :: _, [] => None
  end.

(** The granularities and their length in seconds. *)
Definition GRANULARITIES : list (str * N) :=
  [ (text "hour", 3600); (text "minute", 60); (text "second", 1);
    (text "day", 86400); (text "month", 2592000); (text "year", 31104000) ].

Fixpoint unit_of (table : list (str * N)) (s : str) : option (N * str) :=
  match table with
  | [] => None
  | (u, g) :: table' =>
      match after u s with
      | Some s' => Some (g, s')
      | None => unit_of table' s
      end
  end.

Definition limits_parse (limit_string : str) : exn + RateLimitItem :=
  let fail :=
    inl (ValueError (text "couldn't parse rate limit string " ++ limit_string)) in
  let s := skip search.isspace limit_string in
  if (search.span digit s =? 0)%nat then fail else
  let '(n, s) := number 0 s in
  let s := skip search.isspace s in
  match (match s with
         | 47 :: s' => Some s'
         | _ => after (text "per") s
         end) with
  | None => fail
  | Some s =>
      let s := skip search.isspace s in
      let '(m, s) := number 0 s in
      let s := skip search.isspace s in
      match unit_of GRANULARITIES s with
      | None => fail
      | Some (g, s) =>
          let s := match after (text "s") s with Some s' => s' | None => s end in
          match skip search.isspace s with
          | [] =>
              inr {| amount := n;
                     multiples := if m =? 0 then 1 else m;
                     granularity := g |}
          | _ :: _ => fail
          end
      end
  end.

(** ** Vocabulary of the properties

    Predicates on calls, tasks and loops in which the properties of [amap]
    are stated and proved. *)

Section Vocabulary.

Variable func : Article -> Finally.
Variable rate_limit : RateLimitItem.
Variable timeout : time.

Local Abbreviation attempt := (attempt func timeout).

(** A call that completes in time: synchronously (under a positive
    timeout), or by an awaitable that needs less than the timeout. *)
Definition completes (a : Article) (v : Article) : Prop :=
  (0 < timeout /\ exists d, func a = Now d (Return v)) \/
  (exists d, func a = Later d (Return v) /\ d < timeout).

(** A call that raises in time. *)
Definition fails (a : Article) (e : exn) : Prop :=
  (0 < timeout /\ exists d, func a = Now d (Raise e)) \/
  (exists d, func a = Later d (Raise e) /\ d < timeout).

(** A call that ends in the [except TimeoutError] clause: the timeout is
    not positive, or the awaitable is still pending when the timeout
    expires, or the call itself raises [TimeoutError] in time. *)
Definition times_out (a : Article) : Prop :=
  timeout = 0 \/
  (exists d o, func a = Later d o /\ timeout <= d) \/
  fails a TimeoutError.

(** A suspended task holds the outcome of its [try] statement, and a
    finished one returned it. *)
Definition settled (x : Article * phase) : Prop :=
  match x.2 with
  | Polling _ => True
  | Awaiting _ r => r = attempt x.1
  | Finished v => attempt x.1 = inr v
  end.

Definition sound (articles : list Article) (s : loop) : Prop :=
  (tasks s).*1 = articles /\ Forall settled (tasks s).

(** The article that [runner] returns for [article] when it returns. *)
Definition mapped (article : Article) : Article :=
  match attempt article with
  | inr v => v
  | inl _ => article
  end.

Fixpoint total (g : phase -> nat) (ts : list (Article * phase)) : nat :=
  match ts with
  | [] => O
  | x :: ts' => (g x.2 + total g ts')%nat
  end.

Definition polling (p : phase) : nat :=
  match p with Polling _ => 1%nat | _ => O end.

Definition awaiting (p : phase) : nat :=
  match p with Awaiting _ _ => 1%nat | _ => O end.

(** Time left to a polling task before [horizon]. *)
Definition budget (horizon clock : time) (p : phase) : nat :=
  match p with
  | Polling w => N.to_nat (horizon - N.max clock w)
  | _ => O
  end.

Definition last_hit (s : loop) : time := default 0 (head (hits s)).

Definition horizon (s : loop) : time :=
  last_hit s + get_expiry rate_limit + 1.

Definition steady (s : loop) : Prop :=
  Forall (fun t => t <= last_hit s) (storage s) /\ last_hit s <= clock s.

(** The storage is what a check at some earlier time [c] left of the
    admissions; no window holds more admissions than the quota; and [func]
    was only called after an admission. *)
Definition windowed (s : loop) : Prop :=
  (exists c, c <= clock s /\
     storage s = evict c (get_expiry rate_limit) (hits s)) /\
  (forall x, N.of_nat (admitted_in x (get_expiry rate_limit) (hits s))
             <= amount rate_limit) /\
  (length (calls s) <= length (hits s))%nat.

Definition all_polling (s : loop) : Prop :=
  hits s = [] /\ calls s = [] /\ tasks s <> [] /\
  Forall (fun x => exists w, x.2 = Polling w) (tasks s).

(** No task has slept yet: there is an admission for each task that has
    left the admission loop, and the polling tasks are still due at 0. *)
Definition unhindered (s : loop) : Prop :=
  (length (hits s) + total polling (tasks s) = length (tasks s))%nat /\
  (length (storage s) <= length (hits s))%nat /\
  Forall (fun x => forall w, x.2 = Polling w -> w = 0) (tasks s).

End Vocabulary.

(** The articles of the tasks that have left the admission loop. *)
Definition admitted (ts : list (Article * phase)) : list Article :=
  omap (fun x => match x.2 with Polling _ => None | _ => Some x.1 end) ts.

(** The record of the run agrees with the tasks: under a positive timeout
    [func] was called once for each task that has left the admission loop,
    under a timeout of zero not at all, and there is one admission for each
    such task. *)
Definition accounted (timeout : time) (s : loop) : Prop :=
  (0 < timeout -> calls s ≡ₚ admitted (tasks s)) /\
  (timeout = 0 -> calls s = []) /\
  length (hits s) = length (admitted (tasks s)).

(** ** Sample data *)

Definition paper (t : string) : Article :=
  mkArticle (text t) [text "A. Author"] (text "An abstract.")
            (text "http://arxiv.org/abs/2101.00188v2") None.

Definition batch : list Article := [paper "first"; paper "second"; paper "third"].

Definition translated (a : Article) : Article :=
  mkArticle (title a ++ text " (translated)") (authors a) (summary a) (url a)
            (origin a).

(** A coroutine function that needs 200 ms. *)
Definition quick (a : Article) : Finally := Later 200 (Return (translated a)).

(** A coroutine function that needs a second. *)
Definition slow (a : Article) : Finally := Later 1000 (Return (translated a)).

(** A plain function that holds the loop for a second. *)
Definition busy (a : Article) : Finally := Now 1000 (Return (translated a)).

(** A coroutine function that is slowest on the first article. *)
Definition staggered (a : Article) : Finally :=
  if bool_decide (title a = text "first") then Later 400 (Return (translated a))
  else Later 100 (Return (translated a)).

Definition boom : exn := Error (text "RuntimeError").

(** Raises on the second article. *)
Definition crashing (a : Article) : Finally :=
  if bool_decide (title a = text "second") then Later 10 (Raise boom)
  else Later 200 (Return (translated a)).

Definition per_second (n : N) : RateLimitItem :=
  {| amount := n; multiples := 1; granularity := 1 |}.

(** The loop of [quick] under ["1/second"] after 24 turns: the clock reads
    1000 ms and the second task, denied ten times since 0, is due to poll
    again at 1100 ms. *)
Definition waiting : loop := (run quick (per_second 1) 500 24 (start batch)).2.

(** A second mapping, on top of [translated]. *)
Definition summarised (a : Article) : Article :=
  mkArticle (title a) (authors a) (text "In short.") (url a) (origin a).

Definition summarise (a : Article) : Finally := Now 5 (Return (summarised a)).

(** Gives up on the second article by raising [TimeoutError] itself. *)
Definition impatient (a : Article) : Finally :=
  if bool_decide (title a = text "second") then Now 5 (Raise TimeoutError)
  else Now 5 (Return (translated a)).

(** An awaitable of 300 ms on the first article, 100 ms on the others. *)
Definition uneven (a : Article) : Finally :=
  if bool_decide (title a = text "first") then Later 300 (Return (translated a))
  else Later 100 (Return (translated a)).

(** A short [repr] and an [int] for decimal digits. *)
Definition sample_repr (a : Article) : str :=
  text "Article(title=" ++ title a ++ text ", url=" ++ url a ++ text ")".

Definition sample_int (s : str) : exn + Z :=
  if (search.span digit s =? length s)%nat
  then inr (Z.of_N (number 0 s).1)
  else inl (ValueError (text "invalid literal for int()")).

End article.

(** * Properties of [aixiv/search.py] *)

Section SearchFacts.
Import search.

(** ** Matching [SEP_PATTERN] *)

Lemma span_drop (p q : char -> bool) (s : str) :
  (forall c, p c = true -> q c = true) ->
  (span p s + span q (drop (span p s) s))%nat = span q s.
Proof.
  intros Hpq. induction s as [|c s IH]; simpl; [reflexivity|].
  destruct (p c) eqn:Hp.
  - rewrite (Hpq c Hp). simpl. now rewrite IH.
  - reflexivity.
Qed.

Lemma newline_isspace c : newline c = true -> isspace c = true.
Proof.
  unfold newline, isspace. intros H%N.eqb_eq. subst c. reflexivity.
Qed.

Lemma backtrack_first least k cont n :
  cont k = Some n -> backtrack least k cont = Some n.
Proof. intros H. destruct k; simpl; now rewrite H. Qed.

(** A last class under a quantifier takes the whole run. *)
Lemma match_seq_last must acc p least s :
  (least <= span p s)%nat ->
  (must = false \/ 0 < acc + span p s)%nat ->
  match_seq must acc [Rep p least] s = Some (acc + span p s)%nat.
Proof.
  intros Hle Hadv. simpl.
  destruct (Nat.ltb_spec (span p s) least) as [?|_]; [lia|].
  apply backtrack_first. simpl.
  destruct Hadv as [->|Hpos]; [reflexivity|].
  destruct (Nat.eqb_spec (acc + span p s) 0%nat) as [?|_]; [lia|].
  now rewrite andb_false_r.
Qed.

Lemma match_seq_last_none must acc p least s :
  (span p s < least)%nat -> match_seq must acc [Rep p least] s = None.
Proof.
  intros Hlt. simpl.
  now destruct (Nat.ltb_spec (span p s) least) as [_|?]; [|lia].
Qed.

(** At any place [SEP_PATTERN] matches exactly the run of white space that
    starts there, and nothing when there is none. *)
Lemma match_SEP_PATTERN must s :
  match_at must SEP_PATTERN s =
  if (span isspace s =? 0)%nat then None else Some (span isspace s).
Proof.
  unfold SEP_PATTERN, match_at.
  assert (Hrun := span_drop newline isspace s newline_isspace).
  destruct (Nat.eqb_spec (span isspace s) 0%nat) as [Hz|Hnz].
  - assert (Hn : span newline s = 0%nat) by lia.
    change (match_seq must 0 [plus newline; star isspace] s) with
      (if (span newline s <? 1)%nat then None
       else backtrack 1 (span newline s)
              (fun k => match_seq must (0 + k) [star isspace] (drop k s))).
    rewrite Hn. simpl Nat.ltb. cbv iota.
    change (match_seq must 0 [star newline; plus isspace] s) with
      (if (span newline s <? 0)%nat then None
       else backtrack 0 (span newline s)
              (fun k => match_seq must (0 + k) [plus isspace] (drop k s))).
    rewrite Hn. simpl Nat.ltb. cbv iota.
    unfold backtrack. rewrite drop_0.
    unfold plus. rewrite match_seq_last_none by lia. reflexivity.
  - destruct (Nat.eq_dec (span newline s) 0%nat) as [Hn|Hn].
    + change (match_seq must 0 [plus newline; star isspace] s) with
        (if (span newline s <? 1)%nat then None
         else backtrack 1 (span newline s)
                (fun k => match_seq must (0 + k) [star isspace] (drop k s))).
      rewrite Hn. simpl Nat.ltb. cbv iota.
      change (match_seq must 0 [star newline; plus isspace] s) with
        (if (span newline s <? 0)%nat then None
         else backtrack 0 (span newline s)
                (fun k => match_seq must (0 + k) [plus isspace] (drop k s))).
      rewrite Hn. simpl Nat.ltb. cbv iota.
      unfold backtrack. rewrite drop_0.
      unfold plus. rewrite match_seq_last by lia. reflexivity.
    + change (match_seq must 0 [plus newline; star isspace] s) with
        (if (span newline s <? 1)%nat then None
         else backtrack 1 (span newline s)
                (fun k => match_seq must (0 + k) [star isspace] (drop k s))).
      destruct (Nat.ltb_spec (span newline s) 1%nat) as [?|_]; [lia|].
      erewrite backtrack_first; [reflexivity|].
      unfold star. rewrite match_seq_last by lia.
      f_equal. lia.
Qed.

(** [SEP_PATTERN] has no empty match. *)
Lemma match_SEP_PATTERN_nonempty must s :
  match_at must SEP_PATTERN s <> Some O.
Proof.
  rewrite match_SEP_PATTERN.
  destruct (Nat.eqb_spec (span isspace s) 0%nat); congruence.
Qed.

(** ** Substitution is the squeeze of the spec *)

Lemma sub_from_squeeze s :
  sub_from SEP_PATTERN SEP_REPL s 0 = squeeze false s /\
  sub_from SEP_PATTERN SEP_REPL s (span isspace s) = squeeze true s.
Proof.
  induction s as [|c s [IH0 IHk]].
  - split; reflexivity.
  - assert (H0 : sub_from SEP_PATTERN SEP_REPL (c :: s) 0
                 = squeeze false (c :: s)).
    { cbn [sub_from]. rewrite !match_SEP_PATTERN.
      cbn [span squeeze]. destruct (isspace c).
      - simpl Nat.eqb. cbv iota. now rewrite IHk.
      - simpl Nat.eqb. cbv iota. now rewrite IH0. }
    split; [exact H0|].
    cbn [span]. destruct (isspace c) eqn:Hc.
    + cbn [sub_from squeeze]. now rewrite Hc.
    + rewrite H0. cbn [squeeze]. now rewrite Hc.
Qed.

Lemma sub_SEP_PATTERN s : sub SEP_PATTERN SEP_REPL s = squeeze false s.
Proof. apply sub_from_squeeze. Qed.

(** ** What a squeezed string looks like *)

Lemma squeeze_space b s c :
  c ∈ squeeze b s -> isspace c = true -> c = 32.
Proof.
  revert b. induction s as [|d s IH]; intros b; simpl.
  - intros H%elem_of_nil. contradiction.
  - destruct (isspace d) eqn:Hd.
    + destruct b.
      * apply IH.
      * intros [->|H]%elem_of_cons Hc; [reflexivity|]. now apply (IH true).
    + intros [->|H]%elem_of_cons Hc; [congruence|]. now apply (IH false).
Qed.

Lemma squeeze_no_newline b s : 10 ∉ squeeze b s.
Proof.
  intros H. now apply squeeze_space in H.
Qed.

Lemma squeeze_head b s c :
  head (squeeze b s) = Some c -> isspace c = true -> b = false.
Proof.
  revert b. induction s as [|d s IH]; intros b; simpl; [discriminate|].
  destruct (isspace d) eqn:Hd.
  - destruct b; [|reflexivity]. intros H Hc. now apply (IH true).
  - simpl. intros [= ->] Hc. congruence.
Qed.

(** No two neighbours of a squeezed string are both white space. *)
Lemma squeeze_single b s i c d :
  squeeze b s !! i = Some c -> squeeze b s !! S i = Some d ->
  isspace c = true -> isspace d = true -> False.
Proof.
  revert b i. induction s as [|e s IH]; intros b i; simpl; [discriminate|].
  destruct (isspace e) eqn:He.
  - destruct b.
    + apply IH.
    + destruct i as [|i]; simpl.
      * intros _ Hd _ Hsp. rewrite <- head_lookup in Hd.
        now apply squeeze_head in Hd.
      * apply IH.
  - destruct i as [|i]; simpl.
    + intros [= ->]. congruence.
    + apply IH.
Qed.

(** The other characters are kept, in order. *)
Lemma squeeze_keeps b s :
  List.filter (fun c => negb (isspace c)) (squeeze b s)
  = List.filter (fun c => negb (isspace c)) s.
Proof.
  revert b. induction s as [|c s IH]; intros b; simpl; [reflexivity|].
  destruct (isspace c) eqn:Hc; simpl.
  - destruct b; simpl; apply IH.
  - rewrite Hc. simpl. now rewrite IH.
Qed.


(** ** [format_text] *)

Section FormatText.

Variable latex_to_text : str -> exn + str.
Variable shorten : str -> N -> str.
Variable repr : str -> str.

Local Abbreviation format_text := (format_text latex_to_text shorten repr).
Local Abbreviation detexed := (detexed latex_to_text).

Lemma format_text_converted text_like t :
  latex_to_text text_like = inr t -> format_text text_like = ([], inr t).
Proof. intros H. unfold search.format_text, try_except. now rewrite H. Qed.

Lemma format_text_failed text_like e :
  latex_to_text text_like = inl e ->
  exists msg, format_text text_like = ([WARNING msg], inr text_like).
Proof.
  intros H. unfold search.format_text, try_except. rewrite H.
  eexists. reflexivity.
Qed.

(** C10. [format_text] never raises: on every string it returns a string.
    When the conversion raises, one warning is logged and the input comes
    back unchanged; otherwise nothing is logged and the converted text is
    returned. *)
Theorem format_text_never_raises :
  forall text_like : str,
    exists (logs : list record) (s : str),
      format_text text_like = (logs, inr s) /\
      match latex_to_text text_like with
      | inr t => s = t /\ logs = []
      | inl _ => s = text_like /\ exists msg, logs = [WARNING msg]
      end.
Proof.
  intros text_like. destruct (latex_to_text text_like) as [e|t] eqn:H.
  - destruct (format_text_failed _ _ H) as [msg Hm].
    exists [WARNING msg], text_like. rewrite Hm. eauto.
  - exists [], t. rewrite (format_text_converted _ _ H). eauto.
Qed.

Lemma format_text_detexed text_like :
  exists logs, format_text text_like = (logs, inr (detexed text_like)).
Proof.
  unfold detexed. destruct (latex_to_text text_like) as [e|t] eqn:H.
  - destruct (format_text_failed _ _ H) as [msg ->]. eauto.
  - rewrite (format_text_converted _ _ H). eauto.
Qed.

Lemma detex_article_detexed a :
  exists logs,
    detex_article latex_to_text shorten repr a
    = (logs, inr (mkArticle (detexed (title a)) (authors a)
                    (detexed (summary a)) (url a) (origin a))).
Proof.
  unfold detex_article, bind, ret.
  destruct (format_text_detexed (title a)) as [l1 ->].
  destruct (format_text_detexed (summary a)) as [l2 ->].
  eauto.
Qed.

Lemma mapM_detex_article articles :
  exists logs,
    mapM (detex_article latex_to_text shorten repr) articles
    = (logs, inr (List.map
                    (fun a => mkArticle (detexed (title a)) (authors a)
                                (detexed (summary a)) (url a) (origin a))
                    articles)).
Proof.
  induction articles as [|a l [logs IH]]; simpl; [unfold ret; eauto|].
  destruct (detex_article_detexed a) as [l1 Ha].
  unfold bind, ret. rewrite Ha, IH. eauto.
Qed.

(** The records that [search] hands out are the records [from_arxiv]
    constructs, normalised; with [detex], their title and summary are then
    replaced by what [format_text] makes of them, without another pass of
    [__post_init__]. *)
Lemma search_records
  (datetime : Type) (dateparser_parse : str -> option datetime)
  (strftime : datetime -> str -> str)
  (client_results : str -> N -> list Result)
  categories keywords start_date end_date detex maximum logs articles :
  search datetime dateparser_parse strftime latex_to_text shorten repr
    client_results categories keywords start_date end_date detex maximum
  = (logs, inr articles) ->
  forall a, a ∈ articles ->
    exists r,
      let t := squeeze false (result_title r) in
      let sm := squeeze false (result_summary r) in
      title a = (if detex then detexed t else t) /\
      summary a = (if detex then detexed sm else sm).
Proof.
  unfold search, search.format_date, bind, ret, raise.
  destruct (dateparser_parse start_date); [|discriminate].
  destruct (dateparser_parse end_date); [|discriminate].
  match goal with
  | |- context [List.map from_arxiv ?l] => generalize l
  end.
  intros results. destruct detex.
  - destruct (mapM_detex_article (List.map from_arxiv results)) as [l ->].
    intros [= _ <-] a [b [<- [r [<- _]]%in_map_iff]]%list_elem_of_In%in_map_iff.
    exists r. simpl. split; f_equal; apply sub_SEP_PATTERN.
  - intros [= _ <-] a [r [<- _]]%list_elem_of_In%in_map_iff.
    exists r. split; apply sub_SEP_PATTERN.
Qed.

End FormatText.

End SearchFacts.

(** * Properties of [aixiv/article.py] *)

Section LoopFacts.
Import article.

Variable func : Article -> Finally.
Variable rate_limit : RateLimitItem.
Variable timeout : time.

Local Abbreviation afunc := (afunc func).
Local Abbreviation attempt := (attempt func timeout).
Local Abbreviation step := (step func rate_limit timeout).
Local Abbreviation run := (run func rate_limit timeout).
Local Abbreviation settled := (settled func timeout).
Local Abbreviation sound := (sound func timeout).
Local Abbreviation mapped := (mapped func timeout).
Local Abbreviation horizon := (horizon rate_limit).
Local Abbreviation windowed := (windowed rate_limit).

(** ** The scheduler *)

Lemma earliest_None ts :
  earliest ts = None <-> Forall (fun x => due x.2 = None) ts.
Proof.
  induction ts as [|[a p] ts IH]; simpl.
  - split; [constructor|reflexivity].
  - destruct (due p) as [w|] eqn:Hp.
    + split.
      * destruct (earliest ts) as [[i w']|]; [destruct (w <=? w')|]; discriminate.
      * intros H. inversion H; subst. simpl in *. congruence.
    + split.
      * destruct (earliest ts) as [[i w']|] eqn:He; [discriminate|].
        intros _. constructor; [exact Hp|]. now apply IH.
      * intros H. inversion H as [|? ? _ Hts]; subst.
        apply IH in Hts. now rewrite Hts.
Qed.

Lemma earliest_Some ts i w :
  earliest ts = Some (i, w) ->
  exists a p, ts !! i = Some (a, p) /\ due p = Some w.
Proof.
  revert i w. induction ts as [|[a p] ts IH]; intros i w; simpl; [discriminate|].
  destruct (due p) as [wp|] eqn:Hp.
  - destruct (earliest ts) as [[j w']|] eqn:He.
    + destruct (wp <=? w').
      * intros [= <- <-]. eauto.
      * intros [= <- <-]. simpl. now apply IH.
    + intros [= <- <-]. eauto.
  - destruct (earliest ts) as [[j w']|] eqn:He; [|discriminate].
    simpl. intros [= <- <-]. simpl. now apply IH.
Qed.

(** ** What the tasks hold *)

Lemma sound_start articles : sound articles (start articles).
Proof.
  split; simpl.
  - induction articles as [|a l IH]; [reflexivity|].
    change (a :: (List.map (fun a => (a, Polling 0)) l).*1 = a :: l).
    f_equal. exact IH.
  - induction articles as [|a l IH]; simpl; constructor; [exact I|exact IH].
Qed.

Lemma sound_insert articles (ts : list (Article * phase)) i a p p' :
  ts.*1 = articles -> Forall settled ts ->
  ts !! i = Some (a, p) -> settled (a, p') ->
  (<[i := (a, p')]> ts).*1 = articles /\ Forall settled (<[i := (a, p')]> ts).
Proof.
  intros Hfst Hall Hi Hp. split.
  - rewrite list_fmap_insert. simpl. rewrite list_insert_id; [exact Hfst|].
    rewrite list_lookup_fmap, Hi. reflexivity.
  - apply Forall_insert; assumption.
Qed.

Lemma step_sound articles s o s' :
  sound articles s -> step s = (o, s') -> sound articles s'.
Proof.
  intros [Hfst Hall]. unfold article.step.
  destruct (earliest (tasks s)) as [[i w]|] eqn:He.
  2:{ intros [= _ <-]. now split. }
  destruct (tasks s !! i) as [[a [w'|w' [e|v]|v]]|] eqn:Hi.
  - destruct (hit rate_limit (N.max (clock s) w) (storage s)) as [[] window].
    + intros [= _ <-]. unfold sound. simpl.
      eapply sound_insert; eauto. reflexivity.
    + intros [= _ <-]. unfold sound. simpl.
      eapply sound_insert; eauto. exact I.
  - intros [= _ <-]. now split.
  - intros [= _ <-]. unfold sound. simpl.
    eapply sound_insert; eauto.
    rewrite Forall_lookup in Hall. specialize (Hall _ _ Hi).
    unfold settled in *. simpl in *. congruence.
  - intros [= _ <-]. now split.
  - intros [= _ <-]. now split.
Qed.

Lemma run_sound articles fuel s o s' :
  sound articles s -> run fuel s = (o, s') -> sound articles s'.
Proof.
  revert s. induction fuel as [|fuel IH]; intros s Hs; simpl.
  - intros [= _ <-]. exact Hs.
  - destruct (step s) as [[r|] s1] eqn:Hstep.
    + intros [= _ <-]. eapply step_sound; eauto.
    + intros Hrun. eapply IH; [|exact Hrun]. eapply step_sound; eauto.
Qed.

(** ** What a finished run hands back *)

Lemma results_mapped ts :
  Forall settled ts -> Forall (fun x => due x.2 = None) ts ->
  results ts = mapped <$> ts.*1 /\
  Forall (fun a => attempt a = inr (mapped a)) ts.*1.
Proof.
  induction ts as [|[a p] ts IH]; intros Hs Hd.
  - split; [reflexivity|constructor].
  - inversion Hs as [|? ? Ha Hs']; subst. inversion Hd as [|? ? Hp Hd']; subst.
    destruct (IH Hs' Hd') as [IH1 IH2].
    destruct p as [w|w r|v]; simpl in Hp; try discriminate.
    unfold settled in Ha. simpl in Ha.
    assert (Hm : mapped a = v) by (unfold mapped; now rewrite Ha).
    split.
    + simpl. rewrite Hm. f_equal. exact IH1.
    + simpl. constructor; [now rewrite Hm|exact IH2].
Qed.

Lemma step_Returned articles s res s' :
  sound articles s -> step s = (Some (Returned res), s') ->
  res = mapped <$> articles /\
  Forall (fun a => attempt a = inr (mapped a)) articles.
Proof.
  intros [Hfst Hall]. unfold article.step.
  destruct (earliest (tasks s)) as [[i w]|] eqn:He.
  - destruct (tasks s !! i) as [[a [w'|w' [e|v]|v]]|];
      [destruct (hit rate_limit (N.max (clock s) w) (storage s)) as [[] ?]|..];
      discriminate.
  - intros [= <- _]. apply earliest_None in He.
    rewrite <- Hfst. now apply results_mapped.
Qed.

Lemma step_Raised articles s e s' :
  sound articles s -> step s = (Some (Raised e), s') ->
  exists a, a ∈ articles /\ attempt a = inl e.
Proof.
  intros [Hfst Hall]. unfold article.step.
  destruct (earliest (tasks s)) as [[i w]|] eqn:He; [|discriminate].
  destruct (tasks s !! i) as [[a [w'|w' [e'|v]|v]]|] eqn:Hi;
    [destruct (hit rate_limit (N.max (clock s) w) (storage s)) as [[] ?]|..];
    try discriminate.
  intros [= <- _]. exists a. split.
  - rewrite <- Hfst. apply list_elem_of_fmap. exists (a, Awaiting w' (inl e')).
    split; [reflexivity|]. eapply list_elem_of_lookup_2; eauto.
  - rewrite Forall_lookup in Hall. specialize (Hall _ _ Hi).
    unfold settled in Hall. simpl in Hall. congruence.
Qed.

Lemma run_Some fuel s r s' :
  run fuel s = (Some r, s') ->
  exists n s1, run n s = (None, s1) /\ step s1 = (Some r, s').
Proof.
  revert s. induction fuel as [|fuel IH]; intros s; simpl; [discriminate|].
  destruct (step s) as [[r1|] s1] eqn:Hstep.
  - intros [= <- <-]. exists O, s. split; [reflexivity|exact Hstep].
  - intros Hrun. destruct (IH _ Hrun) as (n & s2 & Hn & Hlast).
    exists (S n), s2. split; [|exact Hlast]. simpl. now rewrite Hstep.
Qed.

Lemma run_Returned articles fuel s res s' :
  sound articles s -> run fuel s = (Some (Returned res), s') ->
  res = mapped <$> articles /\
  Forall (fun a => attempt a = inr (mapped a)) articles.
Proof.
  intros Hs Hrun. destruct (run_Some _ _ _ _ Hrun) as (n & s1 & Hn & Hlast).
  eapply step_Returned; [|exact Hlast]. eapply run_sound; eauto.
Qed.

Lemma run_Raised articles fuel s e s' :
  sound articles s -> run fuel s = (Some (Raised e), s') ->
  exists a, a ∈ articles /\ attempt a = inl e.
Proof.
  intros Hs Hrun. destruct (run_Some _ _ _ _ Hrun) as (n & s1 & Hn & Hlast).
  eapply step_Raised; [|exact Hlast]. eapply run_sound; eauto.
Qed.

(** More fuel does not change a finished run. *)
Lemma run_more fuel fuel' s r s' :
  run fuel s = (Some r, s') -> (fuel <= fuel')%nat -> run fuel' s = (Some r, s').
Proof.
  revert fuel' s. induction fuel as [|fuel IH]; intros fuel' s; simpl;
    [discriminate|].
  intros Hrun Hle. destruct fuel' as [|fuel']; [lia|]. simpl.
  destruct (step s) as [[r1|] s1]; [exact Hrun|].
  apply IH; [exact Hrun|lia].
Qed.

(** ** Every run comes to an end

    With a quota of at least one operation, a denied task is denied only
    while the newest admission is younger than the window; each denial
    moves its next poll [INTERVAL] closer to the end of that window. *)

Lemma total_insert g (ts : list (Article * phase)) i a p a' p' :
  ts !! i = Some (a, p) ->
  (total g (<[i := (a', p')]> ts) + g p = total g ts + g p')%nat.
Proof.
  revert i. induction ts as [|x ts IH]; intros i; [discriminate|].
  destruct i as [|i]; simpl.
  - intros [= ->]. simpl. lia.
  - intros Hi. specialize (IH _ Hi). lia.
Qed.

Lemma total_le g g' (ts : list (Article * phase)) :
  (forall p, g' p <= g p)%nat -> (total g' ts <= total g ts)%nat.
Proof.
  intros Hg. induction ts as [|x ts IH]; simpl; [lia|].
  specialize (Hg x.2). lia.
Qed.

Lemma budget_le h c c' p : c <= c' -> (budget h c' p <= budget h c p)%nat.
Proof. intros Hc. destruct p; simpl; lia. Qed.

Lemma evict_subset now period window t :
  t ∈ evict now period window -> t ∈ window /\ now <= t + period.
Proof.
  unfold evict. rewrite list_elem_of_In, filter_In, <- list_elem_of_In.
  intros [Ht Hle]. split; [exact Ht|]. now apply N.leb_le.
Qed.

(** A denial sees an admission that is still inside the window. *)
Lemma hit_denied now window window' :
  1 <= amount rate_limit ->
  hit rate_limit now window = (false, window') ->
  window' = evict now (get_expiry rate_limit) window /\
  exists t, t ∈ window /\ now <= t + get_expiry rate_limit.
Proof.
  intros Hq. unfold hit.
  destruct (N.ltb_spec (N.of_nat (length (evict now (get_expiry rate_limit) window)))
              (amount rate_limit)) as [Hlt|Hge]; [discriminate|].
  intros [= <-]. split; [reflexivity|].
  destruct (evict now (get_expiry rate_limit) window) as [|t l] eqn:Hev.
  - simpl in Hge. lia.
  - exists t. apply evict_subset. rewrite Hev. left.
Qed.

Lemma hit_admitted now window window' :
  hit rate_limit now window = (true, window') ->
  window' = now :: evict now (get_expiry rate_limit) window /\
  N.of_nat (length (evict now (get_expiry rate_limit) window))
    < amount rate_limit.
Proof.
  unfold hit.
  destruct (N.ltb_spec (N.of_nat (length (evict now (get_expiry rate_limit) window)))
              (amount rate_limit)) as [Hlt|Hge]; [|discriminate].
  intros [= <-]. now split.
Qed.

(** Each turn that does not end the run keeps the loop steady and lowers
    the number of polling tasks, or else their budget, or else the number
    of suspended tasks. *)
Lemma step_decreases s s' :
  1 <= amount rate_limit -> steady s -> step s = (None, s') ->
  steady s' /\
  ((total polling (tasks s') < total polling (tasks s))%nat \/
   (total polling (tasks s') = total polling (tasks s) /\
    ((total (budget (horizon s') (clock s')) (tasks s')
      < total (budget (horizon s) (clock s)) (tasks s))%nat \/
     ((total (budget (horizon s') (clock s')) (tasks s')
       <= total (budget (horizon s) (clock s)) (tasks s))%nat /\
      (total awaiting (tasks s') < total awaiting (tasks s))%nat)))).
Proof.
  intros Hq [Hwin Hclock]. unfold article.step.
  destruct (earliest (tasks s)) as [[i w]|] eqn:He; [|discriminate].
  destruct (earliest_Some _ _ _ He) as (a & p & Hi & Hdue). rewrite Hi.
  set (now := N.max (clock s) w).
  assert (Hnow : clock s <= now) by (unfold now; lia).
  destruct p as [w'|w' [e|v]|v]; simpl in Hdue; try discriminate.
  - injection Hdue as ->.
    destruct (hit rate_limit now (storage s)) as [[] window] eqn:Hhit.
    + apply hit_admitted in Hhit as [-> _].
      intros [= <-]. split.
      * unfold steady, last_hit. simpl. split; [|lia].
        constructor; [lia|].
        apply Forall_forall. intros t [Ht _]%evict_subset.
        rewrite Forall_forall in Hwin. specialize (Hwin _ Ht). lia.
      * left. simpl.
        pose proof (total_insert polling (tasks s) i a (Polling w) a
                      (Awaiting
                         (now + blocking (wait_for (afunc a) timeout)
                          + suspended (wait_for (afunc a) timeout))
                         (attempt a)) Hi) as Ht.
        simpl in Ht. lia.
    + apply (hit_denied _ _ _ Hq) in Hhit as [-> (t & Ht & Hle)].
      intros [= <-].
      rewrite Forall_forall in Hwin. pose proof (Hwin _ Ht) as Htl.
      split.
      * unfold steady, last_hit. simpl. split; [|unfold last_hit in *; lia].
        apply Forall_forall. intros t' [Ht' _]%evict_subset.
        exact (Hwin _ Ht').
      * right. simpl. split.
        { pose proof (total_insert polling (tasks s) i a (Polling w) a
                        (Polling (now + INTERVAL)) Hi) as Hp.
          simpl in Hp. lia. }
        left. unfold horizon, last_hit. simpl.
        fold (last_hit s). fold (horizon s).
        pose proof (total_insert (budget (horizon s) now) (tasks s) i a
                      (Polling w) a (Polling (now + INTERVAL)) Hi) as Hb.
        pose proof (total_le (budget (horizon s) (clock s))
                      (budget (horizon s) now) (tasks s)
                      (fun p => budget_le (horizon s) _ _ p Hnow)) as Hm.
        simpl in Hb. unfold horizon, INTERVAL in *. lia.
  - intros [= <-]. split.
    + unfold steady, last_hit in *. simpl. split; [exact Hwin|lia].
    + right. simpl.
      pose proof (total_insert polling (tasks s) i a (Awaiting w' (inr v)) a
                    (Finished v) Hi) as Hp.
      pose proof (total_insert awaiting (tasks s) i a (Awaiting w' (inr v)) a
                    (Finished v) Hi) as Ha.
      pose proof (total_insert (budget (horizon s) now) (tasks s) i a
                    (Awaiting w' (inr v)) a (Finished v) Hi) as Hb.
      pose proof (total_le (budget (horizon s) (clock s))
                    (budget (horizon s) now) (tasks s)
                    (fun p => budget_le (horizon s) _ _ p Hnow)) as Hm.
      simpl in Hp, Ha, Hb.
      split; [lia|]. right. unfold horizon, last_hit in *. simpl. lia.
Qed.

Lemma run_step s s1 fuel r s' :
  step s = (None, s1) -> run fuel s1 = (Some r, s') ->
  run (S fuel) s = (Some r, s').
Proof. intros Hstep Hrun. simpl. now rewrite Hstep. Qed.

Lemma run_ends_from s :
  1 <= amount rate_limit -> steady s ->
  exists fuel r s', run fuel s = (Some r, s').
Proof.
  intros Hq.
  remember (total polling (tasks s)) as u eqn:Hu.
  revert s Hu. induction u as [u IHu] using lt_wf_ind. intros s Hu.
  remember (total (budget (horizon s) (clock s)) (tasks s)) as m eqn:Hm.
  revert s Hu Hm. induction m as [m IHm] using lt_wf_ind. intros s Hu Hm.
  remember (total awaiting (tasks s)) as k eqn:Hk.
  revert s Hu Hm Hk. induction k as [k IHk] using lt_wf_ind.
  intros s Hu Hm Hk Hst.
  destruct (step s) as [[r|] s1] eqn:Hstep.
  - exists 1%nat, r, s1. simpl. now rewrite Hstep.
  - destruct (step_decreases _ _ Hq Hst Hstep) as [Hst1 Hdec].
    assert (exists fuel r s', run fuel s1 = (Some r, s')) as (fuel & r & s' & Hrun).
    { destruct Hdec as [Hlt|[Heq [Hlt|[Hle Hlt]]]].
      - eapply (IHu (total polling (tasks s1))); [lia|reflexivity|exact Hst1].
      - eapply (IHm (total (budget (horizon s1) (clock s1)) (tasks s1)));
          [lia|lia|reflexivity|exact Hst1].
      - destruct (Nat.eq_dec (total (budget (horizon s1) (clock s1)) (tasks s1)) m)
          as [Heqm|Hne].
        + eapply (IHk (total awaiting (tasks s1)));
            [lia|lia|now symmetry|reflexivity|exact Hst1].
        + eapply (IHm (total (budget (horizon s1) (clock s1)) (tasks s1)));
            [lia|lia|reflexivity|exact Hst1]. }
    exists (S fuel), r, s'. eapply run_step; eauto.
Qed.

Lemma steady_start articles : steady (start articles).
Proof. split; [constructor|unfold last_hit; simpl; lia]. Qed.

Lemma run_ends articles :
  1 <= amount rate_limit ->
  exists fuel r s', run fuel (start articles) = (Some r, s').
Proof. intros Hq. apply run_ends_from; [exact Hq|apply steady_start]. Qed.

(** ** The moving window *)

Lemma filter_length_le {A} (p q : A -> bool) (l : list A) :
  (forall x, p x = true -> q x = true) ->
  (length (List.filter p l) <= length (List.filter q l))%nat.
Proof.
  intros Hpq. induction l as [|x l IH]; simpl; [lia|].
  destruct (p x) eqn:Hp.
  - rewrite (Hpq x Hp). simpl. lia.
  - destruct (q x); simpl; lia.
Qed.

Lemma filter_filter_stronger {A} (p q : A -> bool) (l : list A) :
  (forall x, q x = true -> p x = true) ->
  List.filter q (List.filter p l) = List.filter q l.
Proof.
  intros Hqp. induction l as [|x l IH]; simpl; [reflexivity|].
  destruct (p x) eqn:Hp; simpl.
  - now rewrite IH.
  - destruct (q x) eqn:Hq; [|exact IH]. rewrite (Hqp x Hq) in Hp. discriminate.
Qed.

Lemma evict_later c now period l :
  c <= now -> evict now period (evict c period l) = evict now period l.
Proof.
  intros Hc. unfold evict. apply filter_filter_stronger.
  intros t Ht%N.leb_le. apply N.leb_le. lia.
Qed.

Lemma evict_cons now period l :
  evict now period (now :: l) = now :: evict now period l.
Proof.
  unfold evict. simpl.
  destruct (N.leb_spec now (now + period)); [reflexivity|lia].
Qed.

(** Whatever shares a window with [now] has not been evicted at [now]. *)
Lemma in_window_evict x now period l :
  in_window x period now = true ->
  (length (List.filter (in_window x period) l) <= length (evict now period l))%nat.
Proof.
  unfold in_window. intros [Hx1 Hx2]%andb_true_iff. apply N.leb_le in Hx1, Hx2.
  apply filter_length_le. intros t [Ht1 Ht2]%andb_true_iff.
  apply N.leb_le in Ht1, Ht2. apply N.leb_le. lia.
Qed.

Lemma step_windowed s o s' : windowed s -> step s = (o, s') -> windowed s'.
Proof.
  intros ((c & Hc & Hsto) & Hbound & Hcalls). unfold article.step.
  destruct (earliest (tasks s)) as [[i w]|] eqn:He.
  2:{ intros [= _ <-]. split; [eauto|now split]. }
  set (now := N.max (clock s) w).
  assert (Hnow : clock s <= now) by (unfold now; lia).
  destruct (tasks s !! i) as [[a [w'|w' [e|v]|v]]|] eqn:Hi.
  - destruct (hit rate_limit now (storage s)) as [[] window] eqn:Hhit.
    + apply hit_admitted in Hhit as [-> Hroom].
      rewrite Hsto, evict_later in Hroom by lia.
      intros [= _ <-]. split; [|split]; cbn [clock storage hits calls].
      * exists now. split; [lia|].
        now rewrite Hsto, evict_later, evict_cons by lia.
      * intros x. unfold admitted_in. cbn [List.filter].
        destruct (in_window x (get_expiry rate_limit) now) eqn:Hin;
          [|apply Hbound].
        simpl. pose proof (in_window_evict _ _ _ (hits s) Hin) as Hle. lia.
      * destruct (started (wait_for (afunc a) timeout)); simpl; lia.
    + unfold hit in Hhit.
      destruct (N.of_nat (length (evict now (get_expiry rate_limit) (storage s)))
                <? amount rate_limit); [discriminate|].
      injection Hhit as <-.
      intros [= _ <-]. split; [|split]; simpl; [|exact Hbound|exact Hcalls].
      exists now. split; [lia|]. rewrite Hsto. apply evict_later. lia.
  - intros [= _ <-]. split; [|split]; simpl; [|exact Hbound|exact Hcalls].
    exists c. split; [lia|exact Hsto].
  - intros [= _ <-]. split; [|split]; simpl; [|exact Hbound|exact Hcalls].
    exists c. split; [lia|exact Hsto].
  - intros [= _ <-]. split; [eauto|now split].
  - intros [= _ <-]. split; [eauto|now split].
Qed.

Lemma run_windowed fuel s o s' : windowed s -> run fuel s = (o, s') -> windowed s'.
Proof.
  revert s. induction fuel as [|fuel IH]; intros s Hs; simpl.
  - intros [= _ <-]. exact Hs.
  - destruct (step s) as [[r|] s1] eqn:Hstep.
    + intros [= _ <-]. eapply step_windowed; eauto.
    + intros Hrun. eapply IH; [|exact Hrun]. eapply step_windowed; eauto.
Qed.

Lemma windowed_start articles : windowed (start articles).
Proof.
  split; [|split]; simpl.
  - exists 0. split; [lia|reflexivity].
  - intros x. unfold admitted_in. simpl. lia.
  - lia.
Qed.

(** ** In the admission loop *)

(** A polling task that is denied sleeps for [INTERVAL] and polls again;
    nothing is recorded and [func] is not called.  Admitted, it is
    suspended in [wait_for] from the time of its admission. *)
Lemma step_polling s i w a :
  earliest (tasks s) = Some (i, w) -> tasks s !! i = Some (a, Polling w) ->
  let now := N.max (clock s) w in
  let c := wait_for (afunc a) timeout in
  exists s', step s = (None, s') /\
    if (hit rate_limit now (storage s)).1 then
      hits s' = now :: hits s /\
      tasks s' !! i
        = Some (a, Awaiting (now + blocking c + suspended c) (attempt a))
    else
      hits s' = hits s /\ calls s' = calls s /\
      storage s' = evict now (get_expiry rate_limit) (storage s) /\
      tasks s' !! i = Some (a, Polling (now + INTERVAL)).
Proof.
  intros He Hi now c. unfold article.step. rewrite He, Hi. fold now.
  assert (Hlen : (i < length (tasks s))%nat) by (eapply lookup_lt_Some; eauto).
  destruct (hit rate_limit now (storage s)) as [[] window] eqn:Hhit.
  - eexists. split; [reflexivity|]. simpl. split; [reflexivity|].
    now apply list_lookup_insert_eq.
  - eexists. split; [reflexivity|]. simpl.
    unfold hit in Hhit.
    destruct (N.of_nat (length (evict now (get_expiry rate_limit) (storage s)))
              <? amount rate_limit); [discriminate|].
    injection Hhit as <-.
    repeat split. now apply list_lookup_insert_eq.
Qed.

(** A task leaves the admission loop only by being admitted. *)
Lemma step_keeps_polling s s' o j a w :
  step s = (o, s') -> tasks s !! j = Some (a, Polling w) ->
  (exists w', tasks s' !! j = Some (a, Polling w')) \/
  (exists t w' r, hits s' = t :: hits s /\
     tasks s' !! j = Some (a, Awaiting w' r)).
Proof.
  intros Hstep Hj. unfold article.step in Hstep.
  destruct (earliest (tasks s)) as [[i wi]|] eqn:He.
  2:{ injection Hstep as _ <-. eauto. }
  assert (Hlen : (j < length (tasks s))%nat) by (eapply lookup_lt_Some; eauto).
  destruct (tasks s !! i) as [[ai [w'|w' [e|v]|v]]|] eqn:Hi.
  - destruct (hit rate_limit (N.max (clock s) wi) (storage s)) as [[] window];
      injection Hstep as _ <-; simpl;
      (destruct (decide (i = j)) as [->|Hne];
       [rewrite list_lookup_insert_eq by exact Hlen;
        rewrite Hj in Hi; injection Hi as <- <-; eauto 10
       |rewrite list_lookup_insert_ne by exact Hne; eauto]).
  - injection Hstep as _ <-. simpl. eauto.
  - injection Hstep as _ <-. simpl.
    destruct (decide (i = j)) as [->|Hne]; [congruence|].
    rewrite list_lookup_insert_ne by exact Hne. eauto.
  - injection Hstep as _ <-. eauto.
  - injection Hstep as _ <-. eauto.
Qed.

(** ** A quota of zero admits nothing *)

Lemma step_zero s :
  amount rate_limit = 0 -> all_polling s ->
  exists s', step s = (None, s') /\ all_polling s'.
Proof.
  intros Hz (Hh & Hc & Hne & Hall). unfold article.step.
  destruct (earliest (tasks s)) as [[i w]|] eqn:He.
  - destruct (earliest_Some _ _ _ He) as (a & p & Hi & Hdue). rewrite Hi.
    rewrite Forall_lookup in Hall. destruct (Hall _ _ Hi) as [w' Hp].
    simpl in Hp. subst p. unfold hit. rewrite Hz.
    destruct (N.ltb_spec
                (N.of_nat (length (evict (N.max (clock s) w)
                                     (get_expiry rate_limit) (storage s)))) 0)
      as [?|_]; [lia|].
    eexists. split; [reflexivity|].
    split; [exact Hh|]. split; [exact Hc|]. simpl. split.
    + intros Hnil. apply (f_equal length) in Hnil.
      rewrite length_insert in Hnil. destruct (tasks s); [congruence|discriminate].
    + apply Forall_insert; [now apply Forall_lookup|]. simpl. eauto.
  - apply earliest_None in He. destruct (tasks s) as [|[a p] ts]; [congruence|].
    inversion He as [|? ? Hd _]; subst. inversion Hall as [|? ? [w Hp] _]; subst.
    simpl in *. subst p. discriminate.
Qed.

Lemma run_zero fuel s :
  amount rate_limit = 0 -> all_polling s ->
  exists s', run fuel s = (None, s') /\ all_polling s'.
Proof.
  intros Hz. revert s. induction fuel as [|fuel IH]; intros s Hs; simpl.
  - eauto.
  - destruct (step_zero _ Hz Hs) as (s1 & -> & Hs1). now apply IH.
Qed.

Lemma all_polling_start a articles : all_polling (start (a :: articles)).
Proof.
  repeat split; simpl; [discriminate|].
  constructor; [simpl; eauto|].
  apply Forall_forall. intros x [b [<- _]]%list_elem_of_In%in_map_iff.
  simpl. eauto.
Qed.

(** With no article there is nothing to wait for. *)
Lemma run_empty fuel : run (S fuel) (start []) = (Some (Returned []), start []).
Proof. reflexivity. Qed.

End LoopFacts.

(** ** The [try] statement of [runner] *)

Section AttemptFacts.
Import article.

Variable func : Article -> Finally.
Variable timeout : time.

Local Abbreviation attempt := (attempt func timeout).
Local Abbreviation completes := (completes func timeout).
Local Abbreviation fails := (fails func timeout).
Local Abbreviation times_out := (times_out func timeout).

Lemma wait_for_bounded (aw : coroutine) : suspended (wait_for aw timeout) <= timeout.
Proof.
  unfold wait_for. destruct (N.eqb_spec timeout 0) as [->|_]; simpl; [lia|].
  destruct (N.ltb_spec (suspended aw) timeout); simpl; lia.
Qed.

Lemma attempt_zero a : timeout = 0 -> attempt a = inr a.
Proof. intros ->. reflexivity. Qed.

Lemma attempt_Now a d o :
  0 < timeout -> func a = Now d o ->
  attempt a = match o with
              | Return v => inr (replace v a)
              | Raise TimeoutError => inr a
              | Raise e => inl e
              end.
Proof.
  intros Hpos Hf. unfold article.attempt, wait_for, article.afunc. rewrite Hf.
  destruct (N.eqb_spec timeout 0) as [?|_]; [lia|]. simpl.
  destruct (N.ltb_spec 0 timeout) as [_|?]; [|lia].
  destruct o as [v|[]]; reflexivity.
Qed.

Lemma attempt_Later a d o :
  func a = Later d o -> d < timeout ->
  attempt a = match o with
              | Return v => inr (replace v a)
              | Raise TimeoutError => inr a
              | Raise e => inl e
              end.
Proof.
  intros Hf Hd. unfold article.attempt, wait_for, article.afunc. rewrite Hf.
  destruct (N.eqb_spec timeout 0) as [?|_]; [lia|]. simpl.
  destruct (N.ltb_spec d timeout) as [_|?]; [|lia].
  destruct o as [v|[]]; reflexivity.
Qed.

Lemma attempt_late a d o :
  func a = Later d o -> timeout <= d -> attempt a = inr a.
Proof.
  intros Hf Hd. unfold article.attempt, wait_for, article.afunc. rewrite Hf.
  destruct (N.eqb_spec timeout 0) as [?|_]; [reflexivity|]. simpl.
  destruct (N.ltb_spec d timeout) as [?|_]; [lia|]. reflexivity.
Qed.

Lemma attempt_completes a v : completes a v -> attempt a = inr (replace v a).
Proof.
  intros [[Hpos [d Hf]]|[d [Hf Hd]]].
  - now rewrite (attempt_Now _ _ _ Hpos Hf).
  - now rewrite (attempt_Later _ _ _ Hf Hd).
Qed.

Lemma attempt_fails a e : fails a e -> e <> TimeoutError -> attempt a = inl e.
Proof.
  intros [[Hpos [d Hf]]|[d [Hf Hd]]] He.
  - rewrite (attempt_Now _ _ _ Hpos Hf). now destruct e.
  - rewrite (attempt_Later _ _ _ Hf Hd). now destruct e.
Qed.

(** What [attempt] returns is the mapped article with its origin set, or,
    after a timeout, the article itself. *)
Lemma attempt_inr a r :
  attempt a = inr r ->
  (exists v, completes a v /\ r = replace v a) \/ (times_out a /\ r = a).
Proof.
  destruct (N.eq_dec timeout 0) as [Hz|Hnz].
  - rewrite (attempt_zero a Hz). intros [= <-]. right. split; [now left|reflexivity].
  - assert (Hpos : 0 < timeout) by lia.
    destruct (func a) as [d o|d o] eqn:Hf.
    + rewrite (attempt_Now _ _ _ Hpos Hf).
      destruct o as [v|[]]; intros [= <-].
      * left. exists v. split; [|reflexivity]. left. eauto.
      * right. split; [|reflexivity]. right. right. left. eauto.
    + destruct (N.lt_ge_cases d timeout) as [Hd|Hd].
      * rewrite (attempt_Later _ _ _ Hf Hd).
        destruct o as [v|[]]; intros [= <-].
        -- left. exists v. split; [|reflexivity]. right. eauto.
        -- right. split; [|reflexivity]. right. right. right. eauto.
      * rewrite (attempt_late _ _ _ Hf Hd). intros [= <-].
        right. split; [|reflexivity]. right. left. eauto.
Qed.

(** What [attempt] raises was raised by [func], in time, and is no
    timeout. *)
Lemma attempt_inl a e : attempt a = inl e -> e <> TimeoutError /\ fails a e.
Proof.
  destruct (N.eq_dec timeout 0) as [Hz|Hnz].
  - now rewrite (attempt_zero a Hz).
  - assert (Hpos : 0 < timeout) by lia.
    destruct (func a) as [d o|d o] eqn:Hf.
    + rewrite (attempt_Now _ _ _ Hpos Hf).
      destruct o as [v|[]]; intros [= <-]; (split; [discriminate|]);
        left; eauto.
    + destruct (N.lt_ge_cases d timeout) as [Hd|Hd].
      * rewrite (attempt_Later _ _ _ Hf Hd).
        destruct o as [v|[]]; intros [= <-]; (split; [discriminate|]);
          right; eauto.
      * now rewrite (attempt_late _ _ _ Hf Hd).
Qed.

End AttemptFacts.

(** ** [amap] *)

Section AmapFacts.
Import article.

Variable parse : str -> exn + RateLimitItem.

Local Abbreviation amap := (amap parse).
Local Abbreviation rate_limit_for := (rate_limit_for parse).

Lemma amap_run fuel func articles limit timeout q :
  rate_limit_for limit = inr q ->
  amap fuel func articles limit timeout = run func q timeout fuel (start articles).
Proof. intros H. unfold article.amap. now rewrite H. Qed.

Lemma amap_rejected fuel func articles limit timeout e :
  rate_limit_for limit = inl e ->
  amap fuel func articles limit timeout = (Some (Raised e), start []).
Proof. intros H. unfold article.amap. now rewrite H. Qed.

(** A returned list has an entry per article, in the order of the
    articles, each the outcome of the [try] statement on its article. *)
Lemma amap_Returned fuel func articles limit timeout res s :
  amap fuel func articles limit timeout = (Some (Returned res), s) ->
  length res = length articles /\
  forall i a, articles !! i = Some a ->
    exists r, res !! i = Some r /\ attempt func timeout a = inr r.
Proof.
  unfold article.amap.
  destruct (rate_limit_for limit) as [e|q]; [discriminate|].
  intros Hrun.
  destruct (run_Returned func q timeout articles fuel _ res s
              (sound_start func timeout articles) Hrun) as [-> Hall].
  split; [now rewrite length_fmap|].
  intros i a Hi. exists (mapped func timeout a). split.
  - now rewrite list_lookup_fmap, Hi.
  - rewrite Forall_lookup in Hall. exact (Hall _ _ Hi).
Qed.

(** An exception that leaves [amap] comes from [parse] or from [func]. *)
Lemma amap_Raised fuel func articles limit timeout e s :
  amap fuel func articles limit timeout = (Some (Raised e), s) ->
  rate_limit_for limit = inl e \/
  exists a, a ∈ articles /\ attempt func timeout a = inl e.
Proof.
  unfold article.amap.
  destruct (rate_limit_for limit) as [e'|q].
  - intros [= <- _]. now left.
  - intros Hrun. right.
    exact (run_Raised func q timeout articles fuel _ e s
             (sound_start func timeout articles) Hrun).
Qed.

(** With a quota of at least one, the call comes back. *)
Lemma amap_ends func articles limit timeout q :
  rate_limit_for limit = inr q -> 1 <= amount q ->
  exists fuel0 r s, forall fuel, (fuel0 <= fuel)%nat ->
    amap fuel func articles limit timeout = (Some r, s).
Proof.
  intros Hq Hpos.
  destruct (run_ends func q timeout articles Hpos) as (fuel0 & r & s & Hrun).
  exists fuel0, r, s. intros fuel Hle. rewrite (amap_run _ _ _ _ _ _ Hq).
  eapply run_more; eauto.
Qed.

(** It comes back with a list when no call of [func] raises in time. *)
Lemma amap_returns func articles limit timeout q :
  rate_limit_for limit = inr q -> 1 <= amount q ->
  (forall a, a ∈ articles -> exists r, attempt func timeout a = inr r) ->
  exists fuel0 res s, forall fuel, (fuel0 <= fuel)%nat ->
    amap fuel func articles limit timeout = (Some (Returned res), s).
Proof.
  intros Hq Hpos Hok.
  destruct (amap_ends func articles limit timeout q Hq Hpos)
    as (fuel0 & r & s & Hrun).
  destruct r as [res|e]; [now exists fuel0, res, s|].
  destruct (amap_Raised _ _ _ _ _ _ _ (Hrun fuel0 (Nat.le_refl _)))
    as [Hbad|(a & Ha & He)].
  - congruence.
  - destruct (Hok a Ha) as [r Hr]. congruence.
Qed.

(** It raises when some call of [func] raises in time. *)
Lemma amap_raises func articles limit timeout q a e :
  rate_limit_for limit = inr q -> 1 <= amount q ->
  a ∈ articles -> attempt func timeout a = inl e ->
  exists fuel0 e' s, forall fuel, (fuel0 <= fuel)%nat ->
    amap fuel func articles limit timeout = (Some (Raised e'), s).
Proof.
  intros Hq Hpos Ha He.
  destruct (amap_ends func articles limit timeout q Hq Hpos)
    as (fuel0 & r & s & Hrun).
  destruct r as [res|e']; [|now exists fuel0, e', s].
  destruct (amap_Returned _ _ _ _ _ _ _ (Hrun fuel0 (Nat.le_refl _)))
    as [_ Hres].
  apply list_elem_of_lookup in Ha as [i Hi].
  destruct (Hres _ _ Hi) as (r & _ & Hr). congruence.
Qed.

End AmapFacts.

(** * The contract of [amap] *)

Section Contract.
Import article.





(** C5, as the code has it.  A limit that [parse] rejects makes [amap]
    raise the parser's exception before the loop has a single task: no
    admission is tried and [func] is never called, whatever the fuel.  A
    limit that [parse] accepts is handed to the loop as it is: [amap] has
    no check of its own on the count or the period. *)
Theorem rejected_limit_fails_first parse func articles limit timeout :
  (forall e, rate_limit_for parse limit = inl e ->
     forall fuel,
       let r := amap parse fuel func articles limit timeout in
       r.1 = Some (Raised e) /\
       tasks r.2 = [] /\ hits r.2 = [] /\ calls r.2 = []) /\
  (forall q, rate_limit_for parse limit = inr q ->
     forall fuel,
       amap parse fuel func articles limit timeout
       = run func q timeout fuel (start articles)).
Proof.
  split.
  - intros e He fuel. simpl. rewrite (amap_rejected _ _ _ _ _ _ _ He).
    repeat split.
  - intros q Hq fuel. now apply amap_run.
Qed.

(** C6. Throughout a run of [amap] under the quota [q], no window of the
    length of the quota's period holds more than [amount q] admissions.  A
    denied poll records no timestamp, does not call [func] and puts the
    task to sleep for [INTERVAL]; a task leaves the admission loop only by
    an admission. *)
Theorem moving_window_bound parse func articles limit timeout q :
  rate_limit_for parse limit = inr q ->
  (forall fuel x,
     N.of_nat (admitted_in x (get_expiry q)
                 (hits (amap parse fuel func articles limit timeout).2))
     <= amount q) /\
  (forall s i w a,
     earliest (tasks s) = Some (i, w) -> tasks s !! i = Some (a, Polling w) ->
     (hit q (N.max (clock s) w) (storage s)).1 = false ->
     exists s', step func q timeout s = (None, s') /\
       hits s' = hits s /\ calls s' = calls s /\
       storage s' = evict (N.max (clock s) w) (get_expiry q) (storage s) /\
       tasks s' !! i = Some (a, Polling (N.max (clock s) w + INTERVAL))) /\
  (forall s o s' j a w,
     step func q timeout s = (o, s') -> tasks s !! j = Some (a, Polling w) ->
     (exists w', tasks s' !! j = Some (a, Polling w')) \/
     (exists t w' r, hits s' = t :: hits s /\
        tasks s' !! j = Some (a, Awaiting w' r))).
Proof.
  intros Hq. split; [|split].
  - intros fuel x. rewrite (amap_run _ _ _ _ _ _ _ Hq).
    destruct (run func q timeout fuel (start articles)) as [o s] eqn:Hrun.
    pose proof (run_windowed func q timeout fuel _ o s
                  (windowed_start q articles) Hrun) as (_ & Hbound & _).
    apply Hbound.
  - intros s i w a He Hi Hden.
    destruct (step_polling func q timeout s i w a He Hi) as (s' & Hstep & Hs').
    rewrite Hden in Hs'. exists s'. split; [exact Hstep|exact Hs'].
  - intros s o s' j a w. apply step_keeps_polling.
Qed.


End Contract.

(** ** A batch within the quota *)

Section Unhindered.
Import article.

Variable func : Article -> Finally.
Variable rate_limit : RateLimitItem.
Variable timeout : time.

Lemma total_lookup g (ts : list (Article * phase)) i a p :
  ts !! i = Some (a, p) -> (g p <= total g ts)%nat.
Proof.
  revert i. induction ts as [|x ts IH]; intros i; [discriminate|].
  destruct i as [|i]; simpl.
  - intros [= ->]. simpl. lia.
  - intros Hi. specialize (IH _ Hi). lia.
Qed.

Lemma evict_length now period l : (length (evict now period l) <= length l)%nat.
Proof.
  unfold evict. induction l as [|t l IH]; simpl; [lia|].
  destruct (now <=? t + period); simpl; lia.
Qed.

Lemma step_unhindered s o s' :
  N.of_nat (length (tasks s)) <= amount rate_limit ->
  unhindered s -> step func rate_limit timeout s = (o, s') ->
  unhindered s' /\ length (tasks s') = length (tasks s).
Proof.
  intros Hroom (Hcount & Hsto & Hzero). unfold step.
  destruct (earliest (tasks s)) as [[i w]|] eqn:He.
  2:{ intros [= _ <-]. now repeat split. }
  destruct (tasks s !! i) as [[a [w'|w' [e|v]|v]]|] eqn:Hi.
  - pose proof (total_lookup polling _ _ _ _ Hi) as Hone. simpl in Hone.
    pose proof (evict_length (N.max (clock s) w) (get_expiry rate_limit)
                  (storage s)) as Hev.
    unfold hit.
    destruct (N.ltb_spec
                (N.of_nat (length (evict (N.max (clock s) w)
                                     (get_expiry rate_limit) (storage s))))
                (amount rate_limit)) as [_|Hfull]; [|lia].
    intros [= _ <-]. unfold unhindered. simpl. rewrite length_insert.
    split; [|reflexivity]. split; [|split].
    + pose proof (total_insert polling (tasks s) i a (Polling w') a
                    (Awaiting
                       (N.max (clock s) w
                        + blocking (wait_for (afunc func a) timeout)
                        + suspended (wait_for (afunc func a) timeout))
                       (attempt func timeout a)) Hi) as Ht.
      simpl in Ht. lia.
    + lia.
    + apply Forall_insert; [exact Hzero|]. simpl. discriminate.
  - intros [= _ <-]. now repeat split.
  - intros [= _ <-]. unfold unhindered. simpl. rewrite length_insert.
    split; [|reflexivity]. split; [|split].
    + pose proof (total_insert polling (tasks s) i a (Awaiting w' (inr v)) a
                    (Finished v) Hi) as Ht.
      simpl in Ht. lia.
    + exact Hsto.
    + apply Forall_insert; [exact Hzero|]. simpl. discriminate.
  - intros [= _ <-]. now repeat split.
  - intros [= _ <-]. now repeat split.
Qed.

Lemma run_unhindered fuel s o s' :
  N.of_nat (length (tasks s)) <= amount rate_limit ->
  unhindered s -> run func rate_limit timeout fuel s = (o, s') -> unhindered s'.
Proof.
  revert s. induction fuel as [|fuel IH]; intros s Hroom Hs; simpl.
  - intros [= _ <-]. exact Hs.
  - destruct (step func rate_limit timeout s) as [[r|] s1] eqn:Hstep;
      destruct (step_unhindered _ _ _ Hroom Hs Hstep) as [Hs1 Hlen].
    + intros [= _ <-]. exact Hs1.
    + apply IH; [now rewrite Hlen|exact Hs1].
Qed.

Lemma total_polling_start articles :
  total polling (tasks (start articles)) = length articles.
Proof. induction articles as [|a l IH]; simpl in *; [reflexivity|now rewrite IH]. Qed.

Lemma unhindered_start articles : unhindered (start articles).
Proof.
  split; [|split].
  - rewrite total_polling_start. simpl. now rewrite length_map.
  - simpl. lia.
  - apply Forall_forall. intros x [a [<- _]]%list_elem_of_In%in_map_iff.
    simpl. now intros w [= <-].
Qed.

End Unhindered.

Section Unlimited.
Import article.

(** C7. [limit=None] is the limit ["1000/second"]: the two calls are the
    same run, through the same admission loop.  The limiter is still in
    force (no window of the period holds more admissions than the quota,
    and [func] is called only after an admission), and a batch no larger
    than the quota is never made to wait: no task is ever denied.  In the
    notation of [limits], the quota is 1000 operations per second. *)
Theorem unlimited_is_a_quota :
  (forall parse fuel func articles timeout,
     amap parse fuel func articles None timeout
     = amap parse fuel func articles (Some (text "1000/second")) timeout) /\
  UNLIMITED limits_parse
  = inr {| amount := 1000; multiples := 1; granularity := 1 |} /\
  (forall parse q, UNLIMITED parse = inr q ->
     forall fuel func articles timeout,
       let s := (amap parse fuel func articles None timeout).2 in
       (forall x, N.of_nat (admitted_in x (get_expiry q) (hits s)) <= amount q) /\
       (length (calls s) <= length (hits s))%nat /\
       (N.of_nat (length articles) <= amount q ->
        Forall (fun x => forall w, x.2 = Polling w -> w = 0) (tasks s) /\
        (length (hits s) + total polling (tasks s) = length articles)%nat)).
Proof.
  split; [reflexivity|]. split; [reflexivity|].
  intros parse q Hq fuel func articles timeout.
  assert (Hrun : amap parse fuel func articles None timeout
                 = run func q timeout fuel (start articles))
    by (apply amap_run; exact Hq).
  rewrite Hrun.
  destruct (run func q timeout fuel (start articles)) as [o s] eqn:Hs.
  cbn [snd].
  pose proof (run_windowed func q timeout fuel _ o s
                (windowed_start q articles) Hs) as (_ & Hbound & Hcalls).
  split; [exact Hbound|]. split; [exact Hcalls|].
  intros Hroom.
  assert (Hlen : length (tasks (start articles)) = length articles)
    by (simpl; apply length_map).
  pose proof (run_unhindered func q timeout fuel _ o s
                ltac:(rewrite Hlen; exact Hroom) (unhindered_start articles) Hs)
    as (Hcount & _ & Hzero).
  split; [exact Hzero|].
  pose proof (run_sound func q timeout articles fuel _ o s
                (sound_start func timeout articles) Hs) as [Hfst _].
  rewrite Hcount, <- Hfst. now rewrite length_fmap.
Qed.

End Unlimited.

(** * Runs on concrete batches *)

Section Runs.
Import article.

Lemma quick_completes a : completes quick 500 a (translated a).
Proof. right. exists 200. split; [reflexivity|lia]. Qed.

Lemma staggered_never_fails a e : ~ fails staggered 500 a e.
Proof.
  unfold fails, staggered.
  intros [[_ [d H]]|[d [H _]]]; destruct (bool_decide _); discriminate.
Qed.






(** C5 as stated fails for a count of zero: ["0/second"] parses, the empty
    batch is mapped to the empty list, and on a batch with articles the
    call neither raises nor returns, whatever the fuel: every poll is
    denied and [func] is never called.  The same holds for any parser and
    any limit that it turns into a quota of zero operations. *)
Lemma zero_count_is_not_rejected :
  rate_limit_for limits_parse (Some (text "0/second")) = inr (per_second 0) /\
  amap limits_parse 1 quick [] (Some (text "0/second")) 500
  = (Some (Returned []), start []) /\
  (forall fuel, exists s,
     amap limits_parse fuel quick batch (Some (text "0/second")) 500 = (None, s) /\
     hits s = [] /\ calls s = []) /\
  (forall parse limit q func a articles timeout,
     rate_limit_for parse limit = inr q -> amount q = 0 ->
     forall fuel, exists s,
       amap parse fuel func (a :: articles) limit timeout = (None, s) /\
       hits s = [] /\ calls s = []).
Proof.
  assert (Hzero : forall parse limit q func a articles timeout,
            rate_limit_for parse limit = inr q -> amount q = 0 ->
            forall fuel, exists s,
              amap parse fuel func (a :: articles) limit timeout = (None, s) /\
              hits s = [] /\ calls s = []).
  { intros parse limit q func a articles timeout Hq Hz fuel.
    destruct (run_zero func q timeout fuel (start (a :: articles)) Hz
                (all_polling_start _ _)) as (s & Hrun & Hh & Hc & _).
    exists s. split; [|now split].
    rewrite <- Hrun. now apply amap_run. }
  split; [reflexivity|]. split; [reflexivity|]. split; [|exact Hzero].
  intros fuel.
  exact (Hzero limits_parse (Some (text "0/second")) (per_second 0) quick
           (paper "first") [paper "second"; paper "third"] 500 eq_refl eq_refl
           fuel).
Qed.

Lemma rejected_limit_fails_first_witness :
  rate_limit_for limits_parse (Some (text "3/fortnight"))
  = inl (ValueError (text "couldn't parse rate limit string 3/fortnight")) /\
  forall fuel,
    (amap limits_parse fuel quick batch (Some (text "3/fortnight")) 500).1
    = Some (Raised (ValueError
                      (text "couldn't parse rate limit string 3/fortnight"))) /\
    calls (amap limits_parse fuel quick batch (Some (text "3/fortnight")) 500).2
    = [].
Proof.
  assert (He : rate_limit_for limits_parse (Some (text "3/fortnight"))
               = inl (ValueError
                        (text "couldn't parse rate limit string 3/fortnight")))
    by reflexivity.
  split; [exact He|]. intros fuel.
  destruct (proj1 (rejected_limit_fails_first limits_parse quick batch
                     (Some (text "3/fortnight")) 500) _ He fuel)
    as (Hr & _ & _ & Hc).
  now split.
Defined.

Lemma moving_window_bound_witness :
  rate_limit_for limits_parse (Some (text "1/second")) = inr (per_second 1) /\
  hits (amap limits_parse 40 quick batch (Some (text "1/second")) 500).2
  = [2200; 1100; 0] /\
  (forall fuel x,
     N.of_nat (admitted_in x 1000
                 (hits (amap limits_parse fuel quick batch
                          (Some (text "1/second")) 500).2))
     <= 1).
Proof.
  assert (Hq : rate_limit_for limits_parse (Some (text "1/second"))
               = inr (per_second 1)) by reflexivity.
  split; [exact Hq|]. split; [vm_compute; reflexivity|].
  exact (proj1 (moving_window_bound limits_parse quick batch
                  (Some (text "1/second")) 500 _ Hq)).
Defined.

Lemma unlimited_is_a_quota_witness :
  UNLIMITED limits_parse = inr (per_second 1000) /\
  N.of_nat (length batch) <= amount (per_second 1000) /\
  (forall fuel,
     Forall (fun x => forall w, x.2 = Polling w -> w = 0)
       (tasks (amap limits_parse fuel quick batch None 500).2)) /\
  (amap limits_parse 7 quick batch None 500).1
  = Some (Returned (List.map (fun a => replace (translated a) a) batch)).
Proof.
  assert (Hq : UNLIMITED limits_parse = inr (per_second 1000)) by reflexivity.
  assert (Hroom : N.of_nat (length batch) <= amount (per_second 1000))
    by (simpl; lia).
  split; [exact Hq|]. split; [exact Hroom|]. split; [|vm_compute; reflexivity].
  intros fuel.
  destruct (proj2 (proj2 unlimited_is_a_quota) limits_parse _ Hq fuel quick
              batch 500) as (_ & _ & Hfree).
  exact (proj1 (Hfree Hroom)).
Defined.


End Runs.

(** ** Records on concrete text *)

Section Records.
Import search.


Example format_text_on_failure :
  format_text toy_latex_to_text (fun s _ => s) (fun s => s) [92]
  = ([WARNING (text "Failed to format \. The original string was returned instead.")],
     inr [92]).
Proof. vm_compute. reflexivity. Qed.

End Records.

(** * More on [aixiv/search.py] *)

Section Normalisation.
Import search.

Local Abbreviation normalise := (sub SEP_PATTERN SEP_REPL).

Lemma squeeze_tidy b s : tidy b (squeeze b s) = true.
Proof.
  revert b. induction s as [|c s IH]; intros b; simpl; [reflexivity|].
  destruct (isspace c) eqn:Hc.
  - destruct b; [apply IH|]. simpl. apply IH.
  - simpl. rewrite Hc. apply IH.
Qed.

Lemma tidy_squeeze b s : tidy b s = true -> squeeze b s = s.
Proof.
  revert b. induction s as [|c s IH]; intros b; simpl; [reflexivity|].
  destruct (isspace c).
  - intros [[Hb Hc%N.eqb_eq]%andb_true_iff Ht]%andb_true_iff.
    destruct b; [discriminate|]. subst c. f_equal. now apply IH.
  - intros Ht. f_equal. now apply IH.
Qed.

Lemma squeeze_length b s : (length (squeeze b s) <= length s)%nat.
Proof.
  revert b. induction s as [|c s IH]; intros b; simpl; [lia|].
  pose proof (IH true). pose proof (IH false).
  destruct (isspace c); [destruct b|]; simpl; lia.
Qed.

(** X1. Normalisation is idempotent: an [Article] built again from the
    fields of a constructed [Article] is that [Article], and running
    [__post_init__] a second time changes nothing. *)
Theorem Article_init_idempotent :
  forall (t : str) (au : list str) (sm u : str) (o : option Article),
    let a := __init__ t au sm u o in
    __init__ (title a) (authors a) (summary a) (url a) (origin a) = a /\
    __post_init__ a = a.
Proof.
  intros t au sm u o a.
  assert (H : __post_init__ a = a).
  { unfold a, __init__, __post_init__. simpl. rewrite !sub_SEP_PATTERN.
    now rewrite !(tidy_squeeze false _ (squeeze_tidy false _)). }
  split; [|exact H]. rewrite <- H at 6. reflexivity.
Qed.

(** X2. Normalisation only takes white space away: the result is never
    longer than the input, and the characters that are not white space
    are all kept, in their order. *)
Theorem normalise_keeps_text :
  forall s : str,
    (length (normalise s) <= length s)%nat /\
    List.filter (fun c => negb (isspace c)) (normalise s)
    = List.filter (fun c => negb (isspace c)) s.
Proof.
  intros s. rewrite sub_SEP_PATTERN. split.
  - apply squeeze_length.
  - apply squeeze_keeps.
Qed.

(** X3. The strings that normalisation leaves unchanged are exactly the
    tidy ones: those whose only white space is the space character, never
    two in a row. *)
Theorem normalise_fixed_points :
  forall s : str, normalise s = s <-> tidy false s = true.
Proof.
  intros s. rewrite sub_SEP_PATTERN. split.
  - intros H. rewrite <- H. apply squeeze_tidy.
  - apply tidy_squeeze.
Qed.

Lemma squeeze_all_space b s :
  Forall (fun c => isspace c = true) s ->
  squeeze b s = match s with
                | [] => []
                | _ :: _ => if b then [] else [32]
                end.
Proof.
  intros Hs. revert b. induction Hs as [|c s Hc Hs IH]; intros b;
    [reflexivity|].
  simpl. rewrite Hc. destruct b.
  - rewrite IH. now destruct s.
  - rewrite IH. now destruct s.
Qed.

Lemma squeeze_last_space b s c :
  isspace c = true ->
  last (squeeze b (s ++ [c])) = Some 32 \/ (b = true /\ squeeze b (s ++ [c]) = []).
Proof.
  intros Hc. revert b. induction s as [|d s IH]; intros b; simpl.
  - rewrite Hc. destruct b; [now right|now left].
  - destruct (isspace d).
    + destruct b.
      * apply IH.
      * left. destruct (IH true) as [Hl|[_ Hnil]].
        -- destruct (squeeze true (s ++ [c])); [discriminate|exact Hl].
        -- now rewrite Hnil.
    + left. destruct (IH false) as [Hl|[[=] _]].
      destruct (squeeze false (s ++ [c])); [discriminate|exact Hl].
Qed.

Lemma squeeze_last_text b s c :
  isspace c = false -> last (squeeze b (s ++ [c])) = Some c.
Proof.
  intros Hc. revert b. induction s as [|d s IH]; intros b; simpl.
  - now rewrite Hc.
  - assert (Hne : forall b', squeeze b' (s ++ [c]) <> []).
    { intros b' Hnil. specialize (IH b'). now rewrite Hnil in IH. }
    destruct (isspace d); [destruct b|].
    + apply IH.
    + specialize (IH true). specialize (Hne true).
      destruct (squeeze true (s ++ [c])); [congruence|exact IH].
    + specialize (IH false). specialize (Hne false).
      destruct (squeeze false (s ++ [c])); [congruence|exact IH].
Qed.

(** X4. Normalisation does not strip: white space at the start or at the
    end of a field is kept as one space, a field of white space alone
    becomes a single space, and only the empty field comes out empty.  A
    first or last character that is not white space stays where it is. *)
Theorem normalise_does_not_strip :
  (forall c s, isspace c = true -> head (normalise (c :: s)) = Some 32) /\
  (forall s c, isspace c = true -> last (normalise (s ++ [c])) = Some 32) /\
  (forall c s, isspace c = false -> head (normalise (c :: s)) = Some c) /\
  (forall s c, isspace c = false -> last (normalise (s ++ [c])) = Some c) /\
  (forall c s, Forall (fun c => isspace c = true) (c :: s) ->
     normalise (c :: s) = [32]) /\
  (forall s, normalise s = [] <-> s = []).
Proof.
  split; [|split; [|split; [|split; [|split]]]].
  - intros c s Hc. rewrite sub_SEP_PATTERN. simpl. now rewrite Hc.
  - intros s c Hc. rewrite sub_SEP_PATTERN.
    destruct (squeeze_last_space false s c Hc) as [H|[[=] _]]. exact H.
  - intros c s Hc. rewrite sub_SEP_PATTERN. simpl. now rewrite Hc.
  - intros s c Hc. rewrite sub_SEP_PATTERN. now apply squeeze_last_text.
  - intros c s Hs. rewrite sub_SEP_PATTERN. now rewrite squeeze_all_space.
  - intros s. rewrite sub_SEP_PATTERN. split; [|now intros ->].
    destruct s as [|c s]; [reflexivity|]. simpl.
    destruct (isspace c); discriminate.
Qed.

End Normalisation.

Section SearchOutcome.
Import search.

Variable datetime : Type.
Variable dateparser_parse : str -> option datetime.
Variable strftime : datetime -> str -> str.
Variable latex_to_text : str -> exn + str.
Variable shorten : str -> N -> str.
Variable repr : str -> str.
Variable client_results : str -> N -> list Result.

Local Abbreviation search :=
  (search datetime dateparser_parse strftime latex_to_text shorten repr
     client_results).
Local Abbreviation format_text := (format_text latex_to_text shorten repr).
Local Abbreviation detexed := (detexed latex_to_text).
Local Abbreviation finished := (finished latex_to_text).

Lemma format_text_logs text_like :
  exists logs,
    format_text text_like = (logs, inr (detexed text_like)) /\
    (length logs <= 1)%nat.
Proof.
  unfold search.detexed. destruct (latex_to_text text_like) as [e|t] eqn:H.
  - destruct (format_text_failed _ shorten repr _ _ H) as [msg ->].
    eexists. split; [reflexivity|]. simpl. lia.
  - rewrite (format_text_converted _ shorten repr _ _ H).
    eexists. split; [reflexivity|]. simpl. lia.
Qed.

Lemma mapM_detex_logs articles :
  exists logs,
    mapM (detex_article latex_to_text shorten repr) articles
    = (logs, inr (List.map (finished true) articles)) /\
    (length logs <= 2 * length articles)%nat.
Proof.
  induction articles as [|a l (logs & IH & Hlen)]; simpl.
  - exists []. split; [reflexivity|]. simpl. lia.
  - unfold detex_article at 1, bind, ret.
    destruct (format_text_logs (title a)) as (l1 & -> & H1).
    destruct (format_text_logs (summary a)) as (l2 & -> & H2).
    rewrite IH. eexists. split; [reflexivity|].
    rewrite !length_app. simpl. lia.
Qed.

(** What [search] does once both dates are understood. *)
Lemma search_parsed categories keywords start_date end_date detex maximum ds de :
  dateparser_parse start_date = Some ds ->
  dateparser_parse end_date = Some de ->
  exists logs,
    search categories keywords start_date end_date detex maximum
    = (logs,
       inr (List.map (fun r => finished detex (from_arxiv r))
              (client_results
                 (query_for categories keywords
                    (strftime ds ARXIV_DATE_FORMAT)
                    (strftime de ARXIV_DATE_FORMAT))
                 maximum))) /\
    (length logs
     <= 2 * length (client_results
                      (query_for categories keywords
                         (strftime ds ARXIV_DATE_FORMAT)
                         (strftime de ARXIV_DATE_FORMAT))
                      maximum))%nat /\
    (detex = false -> logs = []).
Proof.
  intros Hs He. unfold search.search, search.format_date, bind, ret.
  rewrite Hs, He. fold (query_for categories keywords
                          (strftime ds ARXIV_DATE_FORMAT)
                          (strftime de ARXIV_DATE_FORMAT)).
  set (results := client_results _ maximum).
  destruct detex.
  - destruct (mapM_detex_logs (List.map from_arxiv results))
      as (logs & -> & Hlen).
    exists logs. rewrite List.map_map. split; [reflexivity|].
    rewrite length_map in Hlen. split; [exact Hlen|discriminate].
  - exists []. split; [reflexivity|]. split; [simpl; lia|reflexivity].
Qed.

Lemma search_unparsed categories keywords start_date end_date detex maximum :
  dateparser_parse start_date = None \/ dateparser_parse end_date = None ->
  exists e,
    search categories keywords start_date end_date detex maximum = ([], inl e).
Proof.
  intros Hbad. unfold search.search, search.format_date, bind, raise, ret.
  destruct (dateparser_parse start_date) as [ds|]; [|eauto].
  destruct Hbad as [[=]|He]. rewrite He. eauto.
Qed.

(** X5. A date that [dateparser] does not understand makes [search] raise
    [ValueError] naming that date, the start date when both are bad; no
    record is returned and nothing is logged. *)
Theorem search_rejects_bad_dates
  categories keywords start_date end_date detex maximum :
  dateparser_parse start_date = None \/ dateparser_parse end_date = None ->
  exists bad,
    dateparser_parse bad = None /\
    (bad = start_date \/
     (bad = end_date /\ dateparser_parse start_date <> None)) /\
    search categories keywords start_date end_date detex maximum
    = ([], inl (ValueError (text "Could not parse " ++ repr bad ++ text "."))).
Proof.
  intros Hbad. unfold search.search, search.format_date, bind, raise, ret.
  destruct (dateparser_parse start_date) as [ds|] eqn:Hs.
  - destruct Hbad as [[=]|He]. exists end_date.
    split; [exact He|]. split; [now right|]. now rewrite He.
  - exists start_date. split; [exact Hs|]. split; [now left|reflexivity].
Qed.

(** X6. The list that [search] returns has one record per result of the
    client, in the client's order, queried with [query_for] of the
    formatted dates and with [maximum]; [url] is the result's [entry_id],
    [authors] are the names of its authors, [origin] is unset.  This holds
    with and without [detex]. *)
Theorem search_keeps_records
  categories keywords start_date end_date detex maximum logs articles :
  search categories keywords start_date end_date detex maximum
  = (logs, inr articles) ->
  exists ds de,
    dateparser_parse start_date = Some ds /\
    dateparser_parse end_date = Some de /\
    let results :=
      client_results
        (query_for categories keywords (strftime ds ARXIV_DATE_FORMAT)
           (strftime de ARXIV_DATE_FORMAT))
        maximum in
    length articles = length results /\
    List.map url articles = List.map entry_id results /\
    List.map authors articles
    = List.map (fun r => List.map name (result_authors r)) results /\
    Forall (fun a => origin a = None) articles.
Proof.
  intros Hrun.
  destruct (dateparser_parse start_date) as [ds|] eqn:Hs.
  2:{ destruct (search_unparsed categories keywords start_date end_date detex
                  maximum (or_introl Hs)) as (e & H).
      congruence. }
  destruct (dateparser_parse end_date) as [de|] eqn:He.
  2:{ destruct (search_unparsed categories keywords start_date end_date detex
                  maximum (or_intror He)) as (e & H).
      congruence. }
  exists ds, de. split; [reflexivity|]. split; [reflexivity|].
  destruct (search_parsed categories keywords start_date end_date detex maximum
              ds de Hs He) as (logs' & Hp & _).
  rewrite Hp in Hrun. injection Hrun as _ <-.
  cbv zeta. rewrite length_map, !List.map_map.
  split; [reflexivity|].
  split; [apply List.map_ext; intros r; now destruct detex|].
  split; [apply List.map_ext; intros r; now destruct detex|].
  apply Forall_forall. intros a [r [<- _]]%list_elem_of_In%in_map_iff.
  now destruct detex.
Qed.


End SearchOutcome.

(** * More on [aixiv/article.py] *)

Section Formatting.
Import article.

Lemma repr_instance_fits m s :
  (Z.of_nat (length s) <= m)%Z -> repr_instance m s = s.
Proof.
  intros Hm. unfold repr_instance.
  now destruct (Z.ltb_spec m (Z.of_nat (length s))) as [?|_]; [lia|].
Qed.

Lemma repr_instance_cut m s :
  (m < Z.of_nat (length s))%Z ->
  Z.of_nat (length (repr_instance m s)) = Z.max m 3 /\
  exists p q, repr_instance m s = p ++ text "..." ++ q /\
    p `prefix_of` s /\ q `suffix_of` s.
Proof.
  intros Hm. unfold repr_instance.
  destruct (Z.ltb_spec m (Z.of_nat (length s))) as [_|?]; [|lia].
  cbv zeta. split.
  - rewrite !length_app, length_take, length_drop.
    change (length (text "...")) with 3%nat.
    Z.to_euclidean_division_equations. lia.
  - eexists _, _. split; [reflexivity|]. split.
    + apply prefix_take.
    + apply suffix_drop.
Qed.

(** X8. [format(article, spec)]: the empty specification gives the whole
    [repr]; a specification that [int] does not accept raises; a number
    [m] gives the [repr] whole when it has at most [m] characters, and
    otherwise exactly [max m 3] characters: a prefix of the [repr], three
    dots, a suffix of the [repr]. *)
Theorem format_is_bounded
  (builtins_repr : Article -> str) (int : str -> exn + Z) (self : Article) :
  __format__ builtins_repr int self [] = inr (builtins_repr self) /\
  (forall spec e, spec <> [] -> int spec = inl e ->
     __format__ builtins_repr int self spec = inl e) /\
  (forall spec m, spec <> [] -> int spec = inr m ->
     exists out, __format__ builtins_repr int self spec = inr out /\
       ((Z.of_nat (length (builtins_repr self)) <= m)%Z ->
        out = builtins_repr self) /\
       ((m < Z.of_nat (length (builtins_repr self)))%Z ->
        Z.of_nat (length out) = Z.max m 3 /\
        exists p q, out = p ++ text "..." ++ q /\
          p `prefix_of` builtins_repr self /\
          q `suffix_of` builtins_repr self)).
Proof.
  split; [reflexivity|]. split.
  - intros [|c spec] e Hne He; [congruence|]. simpl. now rewrite He.
  - intros [|c spec] m Hne Hm; [congruence|]. simpl. rewrite Hm.
    eexists. split; [reflexivity|]. split.
    + apply repr_instance_fits.
    + apply repr_instance_cut.
Qed.

End Formatting.

Section Constructors.

(** X9. The two [from_arxiv] differ by the normalisation alone: a record
    of [aixiv.search] is the record of [aixiv.article] with title and
    summary normalised; authors, URL and the unset origin are the same; the
    records coincide in the fields that are tidy in the arXiv result. *)
Theorem from_arxiv_agree :
  forall r : search.Result,
    let a := article.from_arxiv r in
    let b := search.from_arxiv r in
    search.title b = search.sub search.SEP_PATTERN search.SEP_REPL (article.title a) /\
    search.summary b
    = search.sub search.SEP_PATTERN search.SEP_REPL (article.summary a) /\
    search.authors b = article.authors a /\
    search.url b = article.url a /\
    search.origin b = None /\ article.origin a = None /\
    (search.tidy false (search.result_title r) = true ->
     search.title b = article.title a) /\
    (search.tidy false (search.result_summary r) = true ->
     search.summary b = article.summary a).
Proof.
  intros r a b. repeat split.
  - intros Ht. unfold b, search.from_arxiv, search.__init__. simpl.
    rewrite sub_SEP_PATTERN. now apply tidy_squeeze.
  - intros Ht. unfold b, search.from_arxiv, search.__init__. simpl.
    rewrite sub_SEP_PATTERN. now apply tidy_squeeze.
Qed.

End Constructors.

Section Accounting.
Import article.

Variable func : Article -> Finally.
Variable rate_limit : RateLimitItem.
Variable timeout : time.

Lemma admitted_cons b q (ts : list (Article * phase)) :
  admitted ((b, q) :: ts)
  = match q with Polling _ => admitted ts | _ => b :: admitted ts end.
Proof. now destruct q. Qed.

Lemma admitted_insert_new (ts : list (Article * phase)) i a w p :
  ts !! i = Some (a, Polling w) -> polling p = 0%nat ->
  admitted (<[i := (a, p)]> ts) ≡ₚ a :: admitted ts.
Proof.
  intros Hi Hp. revert i Hi. induction ts as [|[b q] ts IH]; intros i;
    [discriminate|].
  destruct i as [|i]; cbn [lookup list_lookup insert list_insert].
  - intros [= -> ->]. rewrite !admitted_cons. now destruct p.
  - intros Hi. specialize (IH _ Hi). rewrite !admitted_cons.
    destruct q; [exact IH|..]; rewrite IH; apply Permutation_swap.
Qed.

Lemma admitted_insert_same (ts : list (Article * phase)) i a p p' :
  ts !! i = Some (a, p) -> polling p = polling p' ->
  admitted (<[i := (a, p')]> ts) = admitted ts.
Proof.
  intros Hi Hp. revert i Hi. induction ts as [|[b q] ts IH]; intros i;
    [discriminate|].
  destruct i as [|i]; cbn [lookup list_lookup insert list_insert].
  - intros [= -> ->]. rewrite !admitted_cons.
    destruct p, p'; simpl in *; congruence.
  - intros Hi. specialize (IH _ Hi). rewrite !admitted_cons.
    destruct q; [exact IH|f_equal; exact IH..].
Qed.

Lemma admitted_submseteq (ts : list (Article * phase)) : admitted ts ⊆+ ts.*1.
Proof.
  induction ts as [|[a p] ts IH]; [reflexivity|].
  rewrite admitted_cons. change (((a, p) :: ts).*1) with (a :: ts.*1).
  destruct p.
  - now apply submseteq_cons.
  - now apply submseteq_skip.
  - now apply submseteq_skip.
Qed.

Lemma admitted_all (ts : list (Article * phase)) :
  Forall (fun x => due x.2 = None) ts -> admitted ts = ts.*1.
Proof.
  induction 1 as [|[a p] ts Hp _ IH]; [reflexivity|].
  rewrite admitted_cons. change (((a, p) :: ts).*1) with (a :: ts.*1).
  simpl in Hp. destruct p; try discriminate. now rewrite IH.
Qed.

Lemma started_wait_for a :
  started (wait_for (afunc func a) timeout) = negb (timeout =? 0).
Proof.
  unfold wait_for. destruct (timeout =? 0); [reflexivity|].
  destruct (suspended (afunc func a) <? timeout); [|reflexivity].
  unfold afunc. now destruct (func a).
Qed.

Lemma step_accounted s o s' :
  accounted timeout s -> step func rate_limit timeout s = (o, s') ->
  accounted timeout s'.
Proof.
  intros (Hcalls & Hnone & Hhits). unfold step.
  destruct (earliest (tasks s)) as [[i w]|] eqn:He.
  2:{ intros [= _ <-]. now repeat split. }
  destruct (tasks s !! i) as [[a [w'|w' [e|v]|v]]|] eqn:Hi.
  - destruct (hit rate_limit (N.max (clock s) w) (storage s)) as [[] window].
    + intros [= _ <-]. unfold accounted. simpl.
      pose proof (admitted_insert_new (tasks s) i a w'
                    (Awaiting
                       (N.max (clock s) w
                        + blocking (wait_for (afunc func a) timeout)
                        + suspended (wait_for (afunc func a) timeout))
                       (attempt func timeout a)) Hi eq_refl) as Hperm.
      rewrite started_wait_for. split; [|split].
      * intros Hpos. destruct (N.eqb_spec timeout 0) as [?|_]; [lia|]. simpl.
        rewrite Hperm. now rewrite (Hcalls Hpos).
      * intros ->. simpl. now apply Hnone.
      * rewrite Hperm. simpl. now rewrite Hhits.
    + intros [= _ <-]. unfold accounted. simpl.
      now rewrite (admitted_insert_same (tasks s) i a (Polling w')
                     (Polling (N.max (clock s) w + INTERVAL)) Hi eq_refl).
  - intros [= _ <-]. now repeat split.
  - intros [= _ <-]. unfold accounted. simpl.
    now rewrite (admitted_insert_same (tasks s) i a (Awaiting w' (inr v))
                   (Finished v) Hi eq_refl).
  - intros [= _ <-]. now repeat split.
  - intros [= _ <-]. now repeat split.
Qed.

Lemma run_accounted fuel s o s' :
  accounted timeout s -> run func rate_limit timeout fuel s = (o, s') ->
  accounted timeout s'.
Proof.
  revert s. induction fuel as [|fuel IH]; intros s Hs; simpl.
  - intros [= _ <-]. exact Hs.
  - destruct (step func rate_limit timeout s) as [[r|] s1] eqn:Hstep.
    + intros [= _ <-]. eapply step_accounted; eauto.
    + intros Hrun. eapply IH; [|exact Hrun]. eapply step_accounted; eauto.
Qed.

Lemma accounted_start articles : accounted timeout (start articles).
Proof.
  assert (H : admitted (tasks (start articles)) = []).
  { simpl. induction articles as [|a l IH]; [reflexivity|exact IH]. }
  unfold accounted. rewrite H. now repeat split.
Qed.

(** When the run returns a list, every task has left the admission
    loop. *)
Lemma run_Returned_admitted articles fuel res s :
  run func rate_limit timeout fuel (start articles) = (Some (Returned res), s) ->
  admitted (tasks s) = articles.
Proof.
  intros Hrun.
  destruct (run_Some _ _ _ _ _ _ _ Hrun) as (n & s1 & Hn & Hlast).
  pose proof (run_sound func rate_limit timeout articles n _ _ _
                (sound_start func timeout articles) Hn) as [Hfst _].
  unfold step in Hlast.
  destruct (earliest (tasks s1)) as [[i w]|] eqn:He.
  - destruct (tasks s1 !! i) as [[a [w'|w' [e|v]|v]]|];
      [destruct (hit rate_limit (N.max (clock s1) w) (storage s1)) as [[] ?]|..];
      discriminate.
  - injection Hlast as _ <-. apply earliest_None in He.
    now rewrite admitted_all.
Qed.

End Accounting.

Section MoreAmap.
Import article.

Lemma amap_Returned_mapped parse fuel func articles limit timeout res s :
  amap parse fuel func articles limit timeout = (Some (Returned res), s) ->
  res = mapped func timeout <$> articles.
Proof.
  unfold amap. destruct (rate_limit_for parse limit) as [e|q]; [discriminate|].
  intros Hrun.
  now destruct (run_Returned func q timeout articles fuel _ res s
                  (sound_start func timeout articles) Hrun).
Qed.

Lemma amap_accounted parse fuel func articles limit timeout :
  accounted timeout (amap parse fuel func articles limit timeout).2.
Proof.
  unfold amap. destruct (rate_limit_for parse limit) as [e|q].
  - apply (accounted_start timeout []).
  - destruct (run func q timeout fuel (start articles)) as [o s] eqn:Hrun.
    exact (run_accounted func q timeout fuel _ o s
             (accounted_start timeout articles) Hrun).
Qed.

Lemma amap_tasks parse fuel func articles limit timeout :
  admitted (tasks (amap parse fuel func articles limit timeout).2) ⊆+ articles.
Proof.
  unfold amap. destruct (rate_limit_for parse limit) as [e|q].
  - simpl. apply submseteq_nil_l.
  - destruct (run func q timeout fuel (start articles)) as [o s] eqn:Hrun.
    pose proof (run_sound func q timeout articles fuel _ o s
                  (sound_start func timeout articles) Hrun) as [Hfst _].
    simpl. rewrite <- Hfst. apply admitted_submseteq.
Qed.


(** X11. [func] is never called twice for a task and never before an
    admission: at any point of a run the calls made so far are, up to
    order, part of the articles, and no more than the admissions.  When
    [amap] returns a list, each article was admitted once and, under a
    positive timeout, [func] was called once on each article; under a
    timeout of zero it was never called. *)
Theorem func_called_once parse fuel func articles limit timeout :
  let r := amap parse fuel func articles limit timeout in
  calls r.2 ⊆+ articles /\
  (length (calls r.2) <= length (hits r.2) <= length articles)%nat /\
  (forall res, r.1 = Some (Returned res) ->
     length (hits r.2) = length articles /\
     (0 < timeout -> calls r.2 ≡ₚ articles) /\
     (timeout = 0 -> calls r.2 = [])).
Proof.
  intros r.
  pose proof (amap_accounted parse fuel func articles limit timeout)
    as (Hcalls & Hnone & Hhits).
  pose proof (amap_tasks parse fuel func articles limit timeout) as Hsub.
  fold r in Hcalls, Hnone, Hhits, Hsub.
  pose proof (submseteq_length _ _ Hsub) as Hlen.
  destruct (N.eq_dec timeout 0) as [Hz|Hnz].
  - rewrite (Hnone Hz). split; [apply submseteq_nil_l|].
    split; [simpl; lia|].
    intros res Hres. split; [|split; [lia|now intros _]].
    rewrite Hhits. f_equal.
    destruct r as [o s] eqn:Hr. simpl in *. subst o. unfold r, amap in Hr.
    destruct (rate_limit_for parse limit) as [e|q]; [discriminate|].
    exact (run_Returned_admitted func q timeout articles fuel res s Hr).
  - assert (Hpos : 0 < timeout) by lia. specialize (Hcalls Hpos).
    split; [now rewrite Hcalls|].
    split; [rewrite Hcalls, Hhits; lia|].
    intros res Hres.
    assert (Hall : admitted (tasks r.2) = articles).
    { destruct r as [o s] eqn:Hr. simpl in *. subst o. unfold r, amap in Hr.
      destruct (rate_limit_for parse limit) as [e|q]; [discriminate|].
      exact (run_Returned_admitted func q timeout articles fuel res s Hr). }
    split; [now rewrite Hhits, Hall|].
    split; [intros _; now rewrite Hcalls, Hall|lia].
Qed.

(** X12. A timeout of zero maps nothing: with a limit that admits at least
    one operation, [amap] returns the list of articles as it was given, and
    [func] is not called once. *)
Theorem zero_timeout_maps_nothing parse func articles limit q :
  rate_limit_for parse limit = inr q -> 1 <= amount q ->
  exists fuel0 s, forall fuel, (fuel0 <= fuel)%nat ->
    amap parse fuel func articles limit 0 = (Some (Returned articles), s) /\
    calls s = [].
Proof.
  intros Hq Hpos.
  destruct (amap_returns parse func articles limit 0 q Hq Hpos)
    as (fuel0 & res & s & Hrun).
  { intros a _. exists a. now apply attempt_zero. }
  exists fuel0, s. intros fuel Hle.
  pose proof (amap_Returned_mapped _ _ _ _ _ _ _ _ (Hrun fuel Hle)) as ->.
  assert (Hid : mapped func 0 <$> articles = articles).
  { clear. induction articles as [|a l IH]; [reflexivity|].
    simpl. unfold mapped at 1. rewrite attempt_zero by reflexivity.
    f_equal. exact IH. }
  rewrite Hid in Hrun. split; [exact (Hrun fuel Hle)|].
  pose proof (amap_accounted parse fuel func articles limit 0) as (_ & Hnone & _).
  rewrite (Hrun fuel Hle) in Hnone. now apply Hnone.
Qed.


(** X14. A [TimeoutError] that [func] itself raises is taken for a
    timeout: in a returned list the entry of such an article is the
    article as it was given, and when [func] raises [TimeoutError] on
    every article (under a limit that admits at least one operation)
    [amap] returns the input list instead of raising. *)
Theorem own_TimeoutError_is_swallowed parse func articles limit timeout :
  (forall fuel res s,
     amap parse fuel func articles limit timeout = (Some (Returned res), s) ->
     forall i a, articles !! i = Some a ->
       fails func timeout a TimeoutError -> res !! i = Some a) /\
  (forall q, rate_limit_for parse limit = inr q -> 1 <= amount q ->
     (forall a, a ∈ articles -> fails func timeout a TimeoutError) ->
     exists fuel0 s, forall fuel, (fuel0 <= fuel)%nat ->
       amap parse fuel func articles limit timeout
       = (Some (Returned articles), s)).
Proof.
  assert (Hat : forall a, fails func timeout a TimeoutError ->
                          attempt func timeout a = inr a).
  { intros a [[Hpos [d Hf]]|[d [Hf Hd]]].
    - now rewrite (attempt_Now _ _ _ _ _ Hpos Hf).
    - now rewrite (attempt_Later _ _ _ _ _ Hf Hd). }
  split.
  - intros fuel res s Hrun i a Hi Hf.
    destruct (amap_Returned _ _ _ _ _ _ _ _ Hrun) as [_ Hres].
    destruct (Hres _ _ Hi) as (r & Hr & Ha). rewrite (Hat a Hf) in Ha.
    congruence.
  - intros q Hq Hpos Hall.
    destruct (amap_returns parse func articles limit timeout q Hq Hpos)
      as (fuel0 & res & s & Hrun); [eauto|].
    exists fuel0, s. intros fuel Hle. rewrite (Hrun fuel Hle).
    pose proof (amap_Returned_mapped _ _ _ _ _ _ _ _ (Hrun fuel Hle)) as ->.
    do 3 f_equal.
    clear Hrun. induction articles as [|a l IH]; [reflexivity|].
    simpl. unfold mapped at 1. rewrite (Hat a) by (apply Hall; left).
    f_equal. apply IH. intros b Hb. apply Hall. now right.
Qed.

End MoreAmap.

Section Timeouts.
Import article.

Lemma completes_longer func t1 t2 a v :
  t1 <= t2 -> completes func t1 a v -> completes func t2 a v.
Proof.
  intros Hle [[Hpos [d Hf]]|[d [Hf Hd]]].
  - left. split; [lia|eauto].
  - right. exists d. split; [exact Hf|lia].
Qed.


End Timeouts.

(** * More runs on concrete data *)

Section MoreRuns.
Import article.

Lemma format_is_bounded_witness :
  (text "20" <> [] /\ sample_int (text "20") = inr 20%Z /\
   (20 < Z.of_nat (length (sample_repr (paper "first"))))%Z) /\
  __format__ sample_repr sample_int (paper "first") (text "20")
  = inr (text "Article(....00188v2)") /\
  (exists out,
     __format__ sample_repr sample_int (paper "first") (text "20") = inr out /\
     Z.of_nat (length out) = 20%Z) /\
  __format__ sample_repr sample_int (paper "first") (text "x")
  = inl (ValueError (text "invalid literal for int()")).
Proof.
  pose proof (format_is_bounded sample_repr sample_int (paper "first"))
    as (_ & Hbad & Hnum).
  assert (Hne : text "20" <> []) by discriminate.
  assert (Hint : sample_int (text "20") = inr 20%Z) by reflexivity.
  assert (Hlong : (20 < Z.of_nat (length (sample_repr (paper "first"))))%Z)
    by (vm_compute; reflexivity).
  split; [now repeat split|]. split; [vm_compute; reflexivity|]. split.
  - destruct (Hnum _ _ Hne Hint) as (out & Hout & _ & Hcut).
    exists out. split; [exact Hout|]. exact (proj1 (Hcut Hlong)).
  - apply Hbad; [discriminate|reflexivity].
Defined.


Lemma func_called_once_witness :
  (amap limits_parse 40 quick batch (Some (text "1/second")) 500).1
  = Some (Returned (List.map (fun a => replace (translated a) a) batch)) /\
  0 < 500 /\
  calls (amap limits_parse 40 quick batch (Some (text "1/second")) 500).2
  ≡ₚ batch /\
  length (hits (amap limits_parse 40 quick batch (Some (text "1/second")) 500).2)
  = 3%nat.
Proof.
  assert (H1 : (amap limits_parse 40 quick batch (Some (text "1/second")) 500).1
               = Some (Returned (List.map (fun a => replace (translated a) a)
                                   batch)))
    by (vm_compute; reflexivity).
  assert (Hpos : 0 < 500) by lia.
  destruct (func_called_once limits_parse 40 quick batch
              (Some (text "1/second")) 500) as (_ & _ & Hret).
  destruct (Hret _ H1) as (Hhits & Hcalls & _).
  split; [exact H1|]. split; [exact Hpos|]. split; [exact (Hcalls Hpos)|].
  exact Hhits.
Defined.

Lemma zero_timeout_maps_nothing_witness :
  (rate_limit_for limits_parse (Some (text "2/second")) = inr (per_second 2) /\
   1 <= amount (per_second 2)) /\
  (amap limits_parse 40 busy batch (Some (text "2/second")) 0).1
  = Some (Returned batch) /\
  exists fuel0 s, forall fuel, (fuel0 <= fuel)%nat ->
    amap limits_parse fuel busy batch (Some (text "2/second")) 0
    = (Some (Returned batch), s) /\
    calls s = [].
Proof.
  assert (Hq : rate_limit_for limits_parse (Some (text "2/second"))
               = inr (per_second 2)) by reflexivity.
  assert (Hpos : 1 <= amount (per_second 2)) by (simpl; lia).
  split; [now split|]. split; [vm_compute; reflexivity|].
  exact (zero_timeout_maps_nothing limits_parse busy batch
           (Some (text "2/second")) _ Hq Hpos).
Defined.


Lemma own_TimeoutError_is_swallowed_witness :
  (batch !! 1%nat = Some (paper "second") /\
   fails impatient 500 (paper "second") TimeoutError) /\
  (amap limits_parse 7 impatient batch None 500).1
  = Some (Returned [replace (translated (paper "first")) (paper "first");
                    paper "second";
                    replace (translated (paper "third")) (paper "third")]) /\
  exists res, (amap limits_parse 7 impatient batch None 500).1
              = Some (Returned res) /\
              res !! 1%nat = Some (paper "second").
Proof.
  assert (Hi : batch !! 1%nat = Some (paper "second")) by reflexivity.
  assert (Hf : fails impatient 500 (paper "second") TimeoutError).
  { left. split; [lia|]. exists 5. reflexivity. }
  split; [now split|]. split; [vm_compute; reflexivity|].
  destruct (amap limits_parse 7 impatient batch None 500)
    as [[[res|e]|] s] eqn:H; [|vm_compute in H; discriminate..].
  exists res. split; [reflexivity|].
  exact (proj1 (own_TimeoutError_is_swallowed limits_parse impatient batch None
                  500) _ _ _ H _ _ Hi Hf).
Defined.


End MoreRuns.

Section MoreRecords.
Import search.

Local Abbreviation toy_search :=
  (search str toy_dateparser toy_strftime toy_latex_to_text (fun s _ => s)
     (fun s => s) toy_client).

Lemma search_rejects_bad_dates_witness :
  (toy_dateparser (text "2021-01-01") = None \/ toy_dateparser [] = None) /\
  toy_search [text "astro-ph.GA"] [text "galaxy"] (text "2021-01-01") [] true 5
  = ([], inl (ValueError (text "Could not parse ."))).
Proof.
  assert (Hbad : toy_dateparser (text "2021-01-01") = None
                 \/ toy_dateparser [] = None) by now right.
  split; [exact Hbad|].
  destruct (search_rejects_bad_dates str toy_dateparser toy_strftime
              toy_latex_to_text (fun s _ => s) (fun s => s) toy_client
              [text "astro-ph.GA"] [text "galaxy"] (text "2021-01-01") [] true 5
              Hbad) as (bad & Hnone & _ & Hrun).
  rewrite Hrun. destruct bad; [reflexivity|discriminate].
Defined.

Lemma search_keeps_records_witness :
  exists logs articles,
    toy_search [text "astro-ph.GA"] [text "galaxy"] (text "2021-01-01")
      (text "2021-01-02") true 5
    = (logs, inr articles) /\
    length logs = 1%nat /\
    List.map url articles
    = [text "http://arxiv.org/abs/2101.00188v2";
       text "http://arxiv.org/abs/2101.00158v1"] /\
    List.map title articles = [text "Dust in galaxies"; text "Stars"] /\
    List.map url articles
    = List.map entry_id
        (toy_client
           (query_for [text "astro-ph.GA"] [text "galaxy"] (text "2021-01-01")
              (text "2021-01-02")) 5).
Proof.
  destruct (toy_search [text "astro-ph.GA"] [text "galaxy"] (text "2021-01-01")
              (text "2021-01-02") true 5) as [logs [e|articles]] eqn:Hrun;
    [vm_compute in Hrun; discriminate|].
  destruct (search_keeps_records str toy_dateparser toy_strftime
              toy_latex_to_text (fun s _ => s) (fun s => s) toy_client
              _ _ _ _ _ _ _ _ Hrun) as (ds & de & Hs & He & _ & Hurl & _).
  injection Hs as <-. injection He as <-.
  exists logs, articles. split; [reflexivity|].
  vm_compute in Hrun. injection Hrun as <- <-.
  split; [reflexivity|]. split; [reflexivity|]. split; [reflexivity|exact Hurl].
Defined.


End MoreRecords.
